(** * tbayne/priorityqueue: a mutex-guarded priority queue over container/heap

    Shallow embedding of [priorityQueue.go] together with the parts of Go's
    [container/heap] it calls ([Push], [Pop], [Remove], [Fix], [up], [down]).

    Conventions of the embedding.
    - Go [int] values (priorities, positions, the [index] field, counters)
      are [Z]; the only arithmetic on them is [2*i+1], [(j-1)/2] (Go division
      truncates, hence [Z.quot]) and [+1] on values bounded by the length of
      the backing store, so no 64-bit wrap-around can occur.
    - [QItems] is a Go slice of pointers [[]*QItem].  [Push] stores the
      address of a fresh copy of its argument and nothing else ever writes a
      pointer into the store except [Swap], which exchanges two slots; the
      pointers held by the store are therefore pairwise distinct and a slot
      can be identified with the record it points to.  The store is a
      [list QItem]; a pointer to a stored item is the slot that holds it.
    - A run-time panic (index out of range) is the outcome [Panic].  The two
      loops of [container/heap] run on a budget; [Exhausted] is the outcome of
      an exhausted budget, and [up_total]/[down_total] show it never occurs.
    - The mutex is not modelled: every operation holds it for its whole
      body, so operations are executed one after the other. *)

From stdpp Require Import base list strings numbers sorting.
From Stdlib Require Import ZArith Lia DecimalString.

Open Scope Z_scope.

Ltac Zify.zify_post_hook ::= Z.to_euclidean_division_equations.

(** ** Outcomes of a Go computation *)

Inductive result (A : Type) : Type :=
| Ok (a : A)
| Panic
| Exhausted.

Arguments Ok {A} a.
Arguments Panic {A}.
Arguments Exhausted {A}.

#[global] Instance result_ret : MRet result := fun A a => Ok a.

#[global] Instance result_bind : MBind result := fun A B f m =>
  match m with
  | Ok a => f a
  | Panic => Panic
  | Exhausted => Exhausted
  end.

(** Go's [error] values are built with [fmt.Errorf]; they are modelled by
    their message. *)
Definition error := string.

Definition errEmpty : error := "queue is empty, nothing to Pop".
Definition errNotFound (id : string) : error := String.append "ID Not found: [" (String.append id "]").
Definition errIndexOutOfRange : error := "Index out of range".

Section PriorityQueue.

(** The payload type: [Value interface{}] is never inspected. *)
Context {V : Type}.

(** ** Data model *)

Record QItem : Type := mkQItem {
  ID : string;
  ParentID : string;
  Value : V;
  Priority : Z;
  index : Z
}.

(** [type QItems []*QItem] *)
Local Abbreviation QItems := (list QItem).

Record PriorityQueue : Type := mkPriorityQueue {
  available : bool;
  data : QItems
}.

Definition set_index (item : QItem) (i : Z) : QItem :=
  mkQItem (ID item) (ParentID item) (Value item) (Priority item) i.

Definition set_Priority (item : QItem) (p : Z) : QItem :=
  mkQItem (ID item) (ParentID item) (Value item) p (index item).

Definition set_data (pq : PriorityQueue) (d : QItems) : PriorityQueue :=
  mkPriorityQueue (available pq) d.

(** ** Slice accesses *)

(** [func (qData QItems) Len() int] *)
Definition QItems_Len (qData : QItems) : Z := Z.of_nat (length qData).

(** The slot at position [i], if [i] is a valid position. *)
Definition slot (qData : QItems) (i : Z) : option QItem :=
  if i <? 0 then None else qData !! Z.to_nat i.

(** [qData[i]] as an expression: panics outside [0 <= i < len]. *)
Definition at_ (qData : QItems) (i : Z) : result QItem :=
  match slot qData i with
  | Some item => Ok item
  | None => Panic
  end.

(** [qData[i] = item] as a statement: panics outside [0 <= i < len]. *)
Definition store (qData : QItems) (i : Z) (item : QItem) : result QItems :=
  match slot qData i with
  | Some _ => Ok (<[Z.to_nat i := item]> qData)
  | None => Panic
  end.

(** ** heap.Interface methods of [QItems] *)

(** [return qData[i].Priority > qData[j].Priority] *)
Definition QItems_Less (qData : QItems) (i j : Z) : result bool :=
  a ← at_ qData i;
  b ← at_ qData j;
  Ok (Priority a >? Priority b).

(** [qData[i], qData[j] = qData[j], qData[i]; qData[i].index = i;
    qData[j].index = j] *)
Definition QItems_Swap (qData : QItems) (i j : Z) : result QItems :=
  b ← at_ qData j;
  a ← at_ qData i;
  q1 ← store qData i b;
  q2 ← store q1 j a;
  x ← at_ q2 i;
  q3 ← store q2 i (set_index x i);
  y ← at_ q3 j;
  store q3 j (set_index y j).

(** [n := len( *qData); item := x.(QItem); item.index = n;
    *qData = append( *qData, &item)] *)
Definition QItems_Push (qData : QItems) (x : QItem) : QItems :=
  let n := QItems_Len qData in
  qData ++ [set_index x n].

(** [item := old[n-1]; old[n-1] = nil; item.index = -1;
    *qData = old[0 : n-1]; return item].  The cleared slot lies beyond the
    new length and is never read again. *)
Definition QItems_Pop (qData : QItems) : result (QItems * QItem) :=
  let old := qData in
  let n := QItems_Len old in
  item ← at_ old (n - 1);
  Ok (take (Z.to_nat (n - 1)) old, set_index item (-1)).

(** ** container/heap *)

(** [func up(h Interface, j int)]:
    [for { i := (j - 1) / 2; if i == j || !h.Less(j, i) { break };
           h.Swap(i, j); j = i }] *)
Fixpoint up_loop (budget : nat) (h : QItems) (j : Z) : result QItems :=
  match budget with
  | O => Exhausted
  | S budget' =>
      let i := Z.quot (j - 1) 2 in
      if i =? j then Ok h
      else
        lt ← QItems_Less h j i;
        if negb lt then Ok h
        else
          h' ← QItems_Swap h i j;
          up_loop budget' h' i
  end.

Definition up (h : QItems) (j : Z) : result QItems :=
  up_loop (S (length h)) h j.

(** [func down(h Interface, i0, n int) bool]:
    [i := i0; for { j1 := 2*i + 1; if j1 >= n || j1 < 0 { break };
       j := j1; if j2 := j1 + 1; j2 < n && h.Less(j2, j1) { j = j2 };
       if !h.Less(j, i) { break }; h.Swap(i, j); i = j }; return i > i0].
    The loop returns the store and the final [i]. *)
Fixpoint down_loop (budget : nat) (h : QItems) (i n : Z) : result (QItems * Z) :=
  match budget with
  | O => Exhausted
  | S budget' =>
      let j1 := 2 * i + 1 in
      if (j1 >=? n) || (j1 <? 0) then Ok (h, i)
      else
        let j2 := j1 + 1 in
        less21 ← (if j2 <? n then QItems_Less h j2 j1 else Ok false);
        let j := if (less21 : bool) then j2 else j1 in
        lt ← QItems_Less h j i;
        if negb lt then Ok (h, i)
        else
          h' ← QItems_Swap h i j;
          down_loop budget' h' j n
  end.

Definition down (h : QItems) (i0 n : Z) : result (QItems * bool) :=
  '(h', i) ← down_loop (S (length h)) h i0 n;
  Ok (h', i >? i0).

(** [func Push(h Interface, x any) { h.Push(x); up(h, h.Len()-1) }] *)
Definition heap_Push (h : QItems) (x : QItem) : result QItems :=
  let h1 := QItems_Push h x in
  up h1 (QItems_Len h1 - 1).

(** [func Pop(h Interface) any { n := h.Len() - 1; h.Swap(0, n);
    down(h, 0, n); return h.Pop() }] *)
Definition heap_Pop (h : QItems) : result (QItems * QItem) :=
  let n := QItems_Len h - 1 in
  h1 ← QItems_Swap h 0 n;
  '(h2, _) ← down h1 0 n;
  QItems_Pop h2.

(** [if !down(h, i, n) { up(h, i) }], the tail shared by [Remove] and
    [Fix]. *)
Definition down_or_up (h : QItems) (i n : Z) : result QItems :=
  '(h1, moved) ← down h i n;
  if negb moved then up h1 i else Ok h1.

(** [func Remove(h Interface, i int) any { n := h.Len() - 1;
    if n != i { h.Swap(i, n); if !down(h, i, n) { up(h, i) } };
    return h.Pop() }] *)
Definition heap_Remove (h : QItems) (i : Z) : result (QItems * QItem) :=
  let n := QItems_Len h - 1 in
  h1 ← (if negb (n =? i)
        then h' ← QItems_Swap h i n; down_or_up h' i n
        else Ok h);
  QItems_Pop h1.

(** [func Fix(h Interface, i int) { if !down(h, i, h.Len()) { up(h, i) } }] *)
Definition heap_Fix (h : QItems) (i : Z) : result QItems :=
  down_or_up h i (QItems_Len h).

(** ** Unexported helpers of [QItems] *)

(** [func (qData *QItems) update(item *QItem, priority int)
    { item.Priority = priority; heap.Fix(qData, item.index) }].
    The pointer [item] is the slot [p] it was read from. *)
Definition update (qData : QItems) (p : Z) (priority : Z) : result QItems :=
  item ← at_ qData p;
  let item' := set_Priority item priority in
  q1 ← store qData p item';
  heap_Fix q1 (index item').

(** [func (qData *QItems) delete(index int) error
    { if index < qData.Len() { heap.Remove(qData, index); return nil };
      return fmt.Errorf("Index out of range") }] *)
Definition delete (qData : QItems) (index : Z) : result (QItems * option error) :=
  if index <? QItems_Len qData then
    '(q1, _) ← heap_Remove qData index;
    Ok (q1, None)
  else Ok (qData, Some errIndexOutOfRange).

(** ** The queue *)

(** [pq.data = make(QItems, 0); heap.Init(&pq.data)]: on an empty store
    [heap.Init] starts at [0/2 - 1 = -1] and runs no iteration. *)
Definition NewPriorityQueue : PriorityQueue := mkPriorityQueue false [].

Definition Len (pq : PriorityQueue) : Z := QItems_Len (data pq).

Definition Push (pq : PriorityQueue) (i : QItem) : result PriorityQueue :=
  d ← heap_Push (data pq) i;
  Ok (set_data pq d).

(** The returned pointer is [None] for Go's [nil]. *)
Definition Pop (pq : PriorityQueue)
  : result (PriorityQueue * (option QItem * option error)) :=
  if QItems_Len (data pq) >? 0 then
    '(d, r) ← heap_Pop (data pq);
    Ok (set_data pq d, (Some r, None))
  else Ok (pq, (None, Some errEmpty)).

(** The body of [for _, element := range pq.data] in
    [UpdatePriorityByParentId].  The range expression is evaluated once, so
    the visited [positions] are fixed on entry; [element] is read from
    the shared backing array when its position is reached. *)
Fixpoint UpdatePriorityByParentId_loop (positions : list Z) (parentID : string)
    (priority : Z) (d : QItems) (itemsUpdated : Z) : result (QItems * Z) :=
  match positions with
  | [] => Ok (d, itemsUpdated)
  | i :: rest =>
      element ← at_ d i;
      if String.eqb (ParentID element) parentID then
        let index := index element in
        d' ← update d index priority;
        UpdatePriorityByParentId_loop rest parentID priority d' (itemsUpdated + 1)
      else UpdatePriorityByParentId_loop rest parentID priority d itemsUpdated
  end.

Definition UpdatePriorityByParentId (pq : PriorityQueue) (parentID : string)
    (priority : Z) : result (PriorityQueue * Z) :=
  '(d, itemsUpdated) ←
    UpdatePriorityByParentId_loop (seqZ 0 (QItems_Len (data pq)))
      parentID priority (data pq) 0;
  Ok (set_data pq d, itemsUpdated).

(** [for pq.data.Len() > 0 { x := heap.Pop(&pq.data) ... }] *)
Fixpoint Clear_loop (budget : nat) (d : QItems) : result QItems :=
  if QItems_Len d >? 0 then
    match budget with
    | O => Exhausted
    | S budget' => '(d', _) ← heap_Pop d; Clear_loop budget' d'
    end
  else Ok d.

Definition Clear (pq : PriorityQueue) : result PriorityQueue :=
  d ← Clear_loop (length (data pq)) (data pq);
  Ok (set_data pq d).

(** [pq.Clear(); pq.data = nil] *)
Definition Destroy (pq : PriorityQueue) : result PriorityQueue :=
  pq' ← Clear pq;
  Ok (set_data pq' []).

(** [for _, element := range pq.data { if element.ID == id
    { index = element.index; break } }] *)
Fixpoint locateItemByID_loop (elements : QItems) (id : string) (index0 : Z) : Z :=
  match elements with
  | [] => index0
  | element :: rest =>
      if String.eqb (ID element) id then index element
      else locateItemByID_loop rest id index0
  end.

Definition locateItemByID (pq : PriorityQueue) (id : string) : Z * option error :=
  let index := locateItemByID_loop (data pq) id (-1) in
  if index =? -1 then (-1, Some (errNotFound id)) else (index, None).

Definition DeleteItemById (pq : PriorityQueue) (id : string)
  : result (PriorityQueue * option error) :=
  match locateItemByID pq id with
  | (_, Some err) => Ok (pq, Some err)
  | (index, None) =>
      '(d, err) ← delete (data pq) index;
      match err with
      | Some e => Ok (set_data pq d, Some e)
      | None => Ok (set_data pq d, None)
      end
  end.

(** The first loop of [DeleteItemsByParentId]:
    [indexesToDelete = append(indexesToDelete, element.index)] for every
    element whose [ParentID] matches. *)
Definition indexesToDelete (d : QItems) (parentID : string) : list Z :=
  index <$> filter (fun element => ParentID element = parentID) d.

(** The second loop: [for index := range indexesToDelete].  A range clause
    with one variable binds the position in the slice, not the element, so
    [positions] is [0, 1, ..., len(indexesToDelete)-1]. *)
Fixpoint DeleteItemsByParentId_loop (positions : list Z) (d : QItems)
    (itemsDeleted : Z) : result (QItems * (Z * option error)) :=
  match positions with
  | [] => Ok (d, (itemsDeleted, None))
  | index :: rest =>
      '(d', err) ← delete d index;
      match err with
      | Some e => Ok (d', (itemsDeleted, Some e))
      | None => DeleteItemsByParentId_loop rest d' (itemsDeleted + 1)
      end
  end.

Definition DeleteItemsByParentId (pq : PriorityQueue) (parentID : string)
  : result (PriorityQueue * (Z * option error)) :=
  let toDelete := indexesToDelete (data pq) parentID in
  '(d, r) ←
    DeleteItemsByParentId_loop (seqZ 0 (Z.of_nat (length toDelete))) (data pq) 0;
  Ok (set_data pq d, r).

End PriorityQueue.

Arguments QItem : clear implicits.
Arguments PriorityQueue : clear implicits.

Abbreviation QItems V := (list (QItem V)).

(** * Specification vocabulary *)

Section Vocabulary.

Context {V : Type}.

Implicit Types (d h : QItems V) (e : QItem V) (i j k n : Z).

(** Priority stored at position [k] (0 outside the store). *)
Definition prio d k : Z :=
  match slot d k with
  | Some e => Priority e
  | None => 0
  end.

(** Parent position, as [up] computes it. *)
Definition parent k : Z := Z.quot (k - 1) 2.

(** The max-heap property on the first [n] positions. *)
Definition heap_upto d n : Prop :=
  ∀ k, 0 < k < n → prio d k ≤ prio d (parent k).

(** The max-heap property as the data model states it: whenever position
    [i] has a parent position [p], the entry at [p] has the larger or equal
    priority. *)
Definition MaxHeap d : Prop :=
  ∀ i p ei ep, 0 < i → p = parent i →
    slot d i = Some ei → slot d p = Some ep → Priority ei ≤ Priority ep.

(** Position consistency: every stored entry records its own position. *)
Definition PositionConsistent d : Prop :=
  ∀ k e, slot d k = Some e → index e = k.

(** What the caller sees of an entry: everything but [index]. *)
Definition content e : string * string * V * Z :=
  (ID e, ParentID e, Value e, Priority e).

Definition contents d : list (string * string * V * Z) := content <$> d.

(** The heap is in order everywhere except possibly around [i], whose
    priority was changed or which received a new occupant: every edge that
    does not touch [i] is in order, and the children of [i] are below the
    parent of [i]. *)
Definition heap_except d i n : Prop :=
  (∀ k, 0 < k < n → k ≠ i → parent k ≠ i → prio d k ≤ prio d (parent k)) ∧
  (∀ k, 0 < k < n → parent k = i → 0 < i → prio d k ≤ prio d (parent i)).

(** [i] may be smaller than its children, but not larger than its parent. *)
Definition down_ready d i n : Prop :=
  (∀ k, 0 < k < n → parent k ≠ i → prio d k ≤ prio d (parent k)) ∧
  (∀ k, 0 < k < n → parent k = i → 0 < i → prio d k ≤ prio d (parent i)).

(** [j] may be larger than its parent, but not smaller than its children. *)
Definition up_ready d j n : Prop :=
  (∀ k, 0 < k < n → k ≠ j → prio d k ≤ prio d (parent k)) ∧
  (∀ k, 0 < k < n → parent k = j → 0 < j → prio d k ≤ prio d (parent j)).

(** [d'] is [d] with the occupants of [i] and [j] exchanged and their
    [index] fields refreshed. *)
Definition swapped d d' i j : Prop :=
  QItems_Len d' = QItems_Len d ∧
  ∀ k, slot d' k =
         if k =? j then (λ e, set_index e j) <$> slot d i
         else if k =? i then (λ e, set_index e i) <$> slot d j
         else slot d k.

(** A rearrangement of the store: same length, same contents up to order,
    position consistency kept. *)
Definition rearranged d d' : Prop :=
  QItems_Len d' = QItems_Len d ∧
  contents d' ≡ₚ contents d ∧
  (PositionConsistent d → PositionConsistent d').

(** The two invariants of the public interface. *)
Definition Invariant d : Prop :=
  heap_upto d (QItems_Len d) ∧ PositionConsistent d.

(** ** Calls of the public interface *)

Inductive call : Type :=
| CallPush (i : QItem V)
| CallPop
| CallLen
| CallClear
| CallDestroy
| CallUpdatePriorityByParentId (parentID : string) (priority : Z)
| CallDeleteItemById (id : string)
| CallDeleteItemsByParentId (parentID : string).

(** One call, its results dropped. *)
Definition exec (c : call) (pq : PriorityQueue V) : result (PriorityQueue V) :=
  match c with
  | CallPush i => Push pq i
  | CallPop => '(pq', _) ← Pop pq; Ok pq'
  | CallLen => Ok pq
  | CallClear => Clear pq
  | CallDestroy => Destroy pq
  | CallUpdatePriorityByParentId parentID priority =>
      '(pq', _) ← UpdatePriorityByParentId pq parentID priority; Ok pq'
  | CallDeleteItemById id => '(pq', _) ← DeleteItemById pq id; Ok pq'
  | CallDeleteItemsByParentId parentID =>
      '(pq', _) ← DeleteItemsByParentId pq parentID; Ok pq'
  end.

Fixpoint run (cs : list call) (pq : PriorityQueue V) : result (PriorityQueue V) :=
  match cs with
  | [] => Ok pq
  | c :: cs' => pq' ← exec c pq; run cs' pq'
  end.

(** The test suites' drain loop: [for pq.Len() > 0 { x, err := pq.Pop() }],
    collecting the popped entries.  Every round shortens the store, so the
    initial length is budget enough. *)
Fixpoint drain_loop (budget : nat) (pq : PriorityQueue V) : result (list (QItem V)) :=
  if Len pq >? 0 then
    match budget with
    | O => Exhausted
    | S budget' =>
        '(pq', (x, err)) ← Pop pq;
        match x with
        | Some item => rest ← drain_loop budget' pq'; Ok (item :: rest)
        | None => Panic
        end
    end
  else Ok [].

Definition drain (pq : PriorityQueue V) : result (list (QItem V)) :=
  drain_loop (length (data pq)) pq.

End Vocabulary.

Arguments call : clear implicits.

(** * The test suite's fixtures ([priorityqueue_test.go]) *)

(** [strconv.Itoa] *)
Definition Itoa (i : Z) : string := NilZero.string_of_int (Z.to_int i).

(** [populateQueue]: [for i := 0; i < itemsToPopulate; i++] pushes
    [QItem{ParentID: "12345", ID: strconv.Itoa(i), Value: "test",
    Priority: i + 1}]; the unset [index] field is Go's zero value. *)
Fixpoint populateQueue_loop (rounds : nat) (i : Z) (pq : PriorityQueue string)
  : result (PriorityQueue string) :=
  match rounds with
  | O => Ok pq
  | S rounds' =>
      let y := mkQItem (Itoa i) "12345" "test" (i + 1) 0 in
      pq' ← Push pq y;
      populateQueue_loop rounds' (i + 1) pq'
  end.

Definition populateQueue (pq : PriorityQueue string) (itemsToPopulate : Z)
  : result (PriorityQueue string) :=
  populateQueue_loop (Z.to_nat itemsToPopulate) 0 pq.

(** A queue literal for examples: the entries of [items] pushed in order
    onto a fresh queue. *)
Definition pushed (items : list (QItem string)) : result (PriorityQueue string) :=
  run (CallPush <$> items) NewPriorityQueue.

Definition entry (id parentID : string) (priority : Z) : QItem string :=
  mkQItem id parentID "test" priority 0.

(** The calls [populateQueue] makes, as a run of the public interface. *)
Definition populateCalls (itemsToPopulate : Z) : list (call string) :=
  (λ i, CallPush (mkQItem (Itoa i) "12345" "test" (i + 1) 0))
    <$> seqZ 0 itemsToPopulate.

(** The queue [populateQueue] leaves when started on a fresh one. *)
Definition populated (itemsToPopulate : Z) : PriorityQueue string :=
  match populateQueue NewPriorityQueue itemsToPopulate with
  | Ok pq => pq
  | _ => NewPriorityQueue
  end.

(** * Further model: [heap.Init] and vocabulary for the group operations *)

Section MoreModel.

Context {V : Type}.

Implicit Types (d h : QItems V) (e : QItem V) (i j k n : Z).

(** [func Init(h Interface) { n := h.Len();
    for i := n/2 - 1; i >= 0; i-- { down(h, i, n) } }].
    [heap_Init_loop k] runs the iterations [i = k-1, k-2, ..., 0]; the loop
    starts with [k = n/2]. *)
Fixpoint heap_Init_loop (k : nat) (h : QItems V) (n : Z) : result (QItems V) :=
  match k with
  | O => Ok h
  | S k' => '(h', _) ← down h (Z.of_nat k') n; heap_Init_loop k' h' n
  end.

Definition heap_Init (h : QItems V) : result (QItems V) :=
  let n := QItems_Len h in
  heap_Init_loop (Z.to_nat (Z.quot n 2)) h n.

(** The heap order on the first [n] positions, for the edges whose parent
    is at [lo] or later: the subtrees rooted at [lo], [lo+1], ... *)
Definition heap_from d lo n : Prop :=
  ∀ k, 0 < k < n → lo ≤ parent k → prio d k ≤ prio d (parent k).

(** [heap_from] except that [i] may be smaller than its children. *)
Definition down_ready_from lo d i n : Prop :=
  (∀ k, 0 < k < n → lo ≤ parent k → parent k ≠ i → prio d k ≤ prio d (parent k)) ∧
  (∀ k, 0 < k < n → parent k = i → 0 < i → lo ≤ parent i →
     prio d k ≤ prio d (parent i)).

(** The caller's view of an entry with the priority of group [g] replaced
    by [priority]. *)
Definition set_group_priority (g : string) (priority : Z)
    (c : string * string * V * Z) : string * string * V * Z :=
  let '(id, parentID, v, p) := c in
  if String.eqb parentID g then (id, parentID, v, priority) else c.

(** Number of stored entries of group [g]. *)
Definition group_size (g : string) d : Z :=
  Z.of_nat (length (filter (λ e, ParentID e = g) d)).

(** ** The sift loops on Go's 64-bit [int]

    [up] and [down] above compute [(j-1)/2], [2*i+1] and [j1+1] on [Z].
    The versions below wrap every sum and product to 64 bits as Go's [int]
    does; they are what [container/heap] runs for an arbitrary argument.
    [up64_agrees] and [down64_agrees] show that both versions coincide on
    every non-negative position, which is all this package ever passes. *)

Definition int64 (z : Z) : Prop :=
  -9223372036854775808 ≤ z < 9223372036854775808.

Definition wrap64 (z : Z) : Z :=
  (z + 9223372036854775808) mod 18446744073709551616 - 9223372036854775808.

Fixpoint up64_loop (budget : nat) (h : QItems V) (j : Z) : result (QItems V) :=
  match budget with
  | O => Exhausted
  | S budget' =>
      let i := Z.quot (wrap64 (j - 1)) 2 in
      if i =? j then Ok h
      else
        lt ← QItems_Less h j i;
        if negb lt then Ok h
        else
          h' ← QItems_Swap h i j;
          up64_loop budget' h' i
  end.

Definition up64 (h : QItems V) (j : Z) : result (QItems V) :=
  up64_loop (S (length h)) h j.

Fixpoint down64_loop (budget : nat) (h : QItems V) (i n : Z)
  : result (QItems V * Z) :=
  match budget with
  | O => Exhausted
  | S budget' =>
      let j1 := wrap64 (2 * i + 1) in
      if (j1 >=? n) || (j1 <? 0) then Ok (h, i)
      else
        let j2 := wrap64 (j1 + 1) in
        less21 ← (if j2 <? n then QItems_Less h j2 j1 else Ok false);
        let j := if (less21 : bool) then j2 else j1 in
        lt ← QItems_Less h j i;
        if negb lt then Ok (h, i)
        else
          h' ← QItems_Swap h i j;
          down64_loop budget' h' j n
  end.

Definition down64 (h : QItems V) (i0 n : Z) : result (QItems V * bool) :=
  '(h', i) ← down64_loop (S (length h)) h i0 n;
  Ok (h', i >? i0).

End MoreModel.

(** * Facts about slice accesses *)

Section SliceFacts.

Context {V : Type}.

Implicit Types (d h : QItems V) (e : QItem V) (i j k n : Z).

Lemma slot_is_Some d k : is_Some (slot d k) ↔ 0 ≤ k < QItems_Len d.
Proof.
  unfold slot, QItems_Len.
  destruct (Z.ltb_spec k 0) as [Hk|Hk].
  - split; [intros [x Hx]; discriminate | lia].
  - rewrite lookup_lt_is_Some. lia.
Qed.

Lemma slot_None d k : slot d k = None ↔ ¬ (0 ≤ k < QItems_Len d).
Proof. rewrite <- slot_is_Some. rewrite eq_None_not_Some. tauto. Qed.

Lemma slot_Some_range d k e : slot d k = Some e → 0 ≤ k < QItems_Len d.
Proof. intros H. apply slot_is_Some. eauto. Qed.

Lemma slot_of_nat d (m : nat) : slot d (Z.of_nat m) = d !! m.
Proof.
  unfold slot. destruct (Z.ltb_spec (Z.of_nat m) 0); [lia|].
  by rewrite Nat2Z.id.
Qed.

Lemma slot_ext d d' : (∀ k, slot d' k = slot d k) → d' = d.
Proof.
  intros H. apply list_eq. intros m.
  rewrite <- !slot_of_nat. apply H.
Qed.

Lemma at_Ok d k e : slot d k = Some e → at_ d k = Ok e.
Proof. unfold at_. by intros ->. Qed.

Lemma store_Ok d k e x :
  slot d k = Some e → store d k x = Ok (<[Z.to_nat k := x]> d).
Proof. unfold store. by intros ->. Qed.

Lemma Len_insert d (m : nat) x : QItems_Len (<[m := x]> d) = QItems_Len d.
Proof. unfold QItems_Len. by rewrite length_insert. Qed.

Lemma slot_insert d i x k :
  0 ≤ i < QItems_Len d →
  slot (<[Z.to_nat i := x]> d) k = if k =? i then Some x else slot d k.
Proof.
  intros Hi. unfold slot.
  destruct (Z.ltb_spec k 0) as [Hk|Hk].
  - destruct (Z.eqb_spec k i); [lia | done].
  - destruct (Z.eqb_spec k i) as [->|Hne].
    + apply list_lookup_insert_eq. unfold QItems_Len in Hi. lia.
    + apply list_lookup_insert_ne. lia.
Qed.

Lemma prio_slot d k e : slot d k = Some e → prio d k = Priority e.
Proof. unfold prio. by intros ->. Qed.

Lemma Less_Ok d i j :
  0 ≤ i < QItems_Len d → 0 ≤ j < QItems_Len d →
  QItems_Less d i j = Ok (prio d i >? prio d j).
Proof.
  intros Hi Hj.
  apply slot_is_Some in Hi as [a Ha]. apply slot_is_Some in Hj as [b Hb].
  unfold QItems_Less. rewrite (at_Ok _ _ _ Ha), (at_Ok _ _ _ Hb). simpl.
  by rewrite (prio_slot _ _ _ Ha), (prio_slot _ _ _ Hb).
Qed.

(** The store after [Swap(i, j)], slot by slot. *)
Lemma Swap_Ok d i j :
  0 ≤ i < QItems_Len d → 0 ≤ j < QItems_Len d →
  ∃ d', QItems_Swap d i j = Ok d' ∧
    QItems_Len d' = QItems_Len d ∧
    ∀ k, slot d' k =
           if k =? j then (λ e, set_index e j) <$> slot d i
           else if k =? i then (λ e, set_index e i) <$> slot d j
           else slot d k.
Proof.
  intros Hi Hj.
  destruct (proj2 (slot_is_Some d i) Hi) as [a Ha].
  destruct (proj2 (slot_is_Some d j) Hj) as [b Hb].
  unfold QItems_Swap.
  rewrite (at_Ok _ _ _ Hb), (at_Ok _ _ _ Ha). simpl.
  rewrite (store_Ok _ _ _ b Ha). simpl.
  set (q1 := <[Z.to_nat i := b]> d).
  assert (L1 : QItems_Len q1 = QItems_Len d) by apply Len_insert.
  assert (S1 : ∀ k, slot q1 k = if k =? i then Some b else slot d k)
    by (intros; by apply slot_insert).
  assert (Hq1j : is_Some (slot q1 j)) by (apply slot_is_Some; lia).
  destruct Hq1j as [c Hc]. rewrite (store_Ok _ _ _ a Hc). simpl.
  set (q2 := <[Z.to_nat j := a]> q1).
  assert (L2 : QItems_Len q2 = QItems_Len d) by (unfold q2; by rewrite Len_insert).
  assert (S2 : ∀ k, slot q2 k = if k =? j then Some a else slot q1 k)
    by (intros; apply slot_insert; lia).
  assert (Hx : slot q2 i = Some (if i =? j then a else b)).
  { rewrite S2, S1, Z.eqb_refl. by destruct (i =? j). }
  rewrite (at_Ok _ _ _ Hx). simpl. rewrite (store_Ok _ _ _ _ Hx). simpl.
  set (x := if i =? j then a else b) in *.
  set (q3 := <[Z.to_nat i := set_index x i]> q2).
  assert (L3 : QItems_Len q3 = QItems_Len d) by (unfold q3; by rewrite Len_insert).
  assert (S3 : ∀ k, slot q3 k = if k =? i then Some (set_index x i) else slot q2 k)
    by (intros; apply slot_insert; lia).
  assert (Hy : slot q3 j = Some (if j =? i then set_index x i else a)).
  { rewrite S3, S2, Z.eqb_refl. by destruct (j =? i). }
  rewrite (at_Ok _ _ _ Hy). simpl. rewrite (store_Ok _ _ _ _ Hy).
  set (y := if j =? i then set_index x i else a) in *.
  eexists. split; [reflexivity|]. split; [by rewrite Len_insert|].
  intros k. rewrite slot_insert by lia.
  destruct (Z.eqb_spec k j) as [->|Hkj].
  - rewrite Ha. simpl. f_equal. unfold y, x.
    destruct (Z.eqb_spec j i) as [->|?]; [|done].
    rewrite Z.eqb_refl. done.
  - rewrite S3. destruct (Z.eqb_spec k i) as [->|Hki].
    + rewrite Hb. simpl. f_equal. unfold x.
      destruct (Z.eqb_spec i j); [lia | done].
    + rewrite S2, S1.
      destruct (Z.eqb_spec k j); [lia|]. destruct (Z.eqb_spec k i); [lia|done].
Qed.

End SliceFacts.

(** * Facts about [Swap] and rearrangements *)

Section SwapFacts.

Context {V : Type}.

Implicit Types (d h : QItems V) (e : QItem V) (i j k n : Z).

Lemma swapped_prio d d' i j k :
  swapped d d' i j →
  prio d' k = if k =? j then prio d i else if k =? i then prio d j else prio d k.
Proof.
  intros [_ H]. unfold prio. rewrite H.
  destruct (k =? j); [by destruct (slot d i)|].
  destruct (k =? i); [by destruct (slot d j)|]. done.
Qed.

Lemma swapped_frame d d' i j k :
  swapped d d' i j → k ≠ i → k ≠ j → slot d' k = slot d k.
Proof.
  intros [_ H] Hi Hj. rewrite H.
  destruct (Z.eqb_spec k j); [lia|]. destruct (Z.eqb_spec k i); [lia|done].
Qed.

Lemma content_set_index e i : content (set_index e i) = content e.
Proof. done. Qed.

Lemma contents_lookup d (m : nat) :
  contents d !! m = content <$> slot d (Z.of_nat m).
Proof. unfold contents. by rewrite list_lookup_fmap, slot_of_nat. Qed.

Lemma swapped_contents d d' i j :
  0 ≤ i < QItems_Len d → 0 ≤ j < QItems_Len d →
  swapped d d' i j → contents d' ≡ₚ contents d.
Proof.
  intros Hi Hj [HL H].
  apply Permutation_inj. split.
  { unfold contents, QItems_Len in *. rewrite !length_fmap. lia. }
  exists (λ m : nat,
    if decide (m = Z.to_nat j) then Z.to_nat i
    else if decide (m = Z.to_nat i) then Z.to_nat j else m).
  split.
  - intros m1 m2. repeat case_decide; lia.
  - intros m. rewrite !contents_lookup, H.
    destruct (Z.eqb_spec (Z.of_nat m) j) as [E|E].
    + rewrite decide_True by lia. rewrite Z2Nat.id by lia.
      destruct (slot d i); done.
    + rewrite decide_False by lia.
      destruct (Z.eqb_spec (Z.of_nat m) i) as [E'|E'].
      * rewrite decide_True by lia. rewrite Z2Nat.id by lia.
        destruct (slot d j); done.
      * rewrite decide_False by lia. done.
Qed.

Lemma swapped_positions d d' i j :
  swapped d d' i j → PositionConsistent d → PositionConsistent d'.
Proof.
  intros [_ H] Hd k e. rewrite H.
  destruct (Z.eqb_spec k j) as [->|?].
  { destruct (slot d i); simpl; [|done]. by intros [= <-]. }
  destruct (Z.eqb_spec k i) as [->|?].
  { destruct (slot d j); simpl; [|done]. by intros [= <-]. }
  apply Hd.
Qed.

Lemma swapped_rearranged d d' i j :
  0 ≤ i < QItems_Len d → 0 ≤ j < QItems_Len d →
  swapped d d' i j → rearranged d d'.
Proof.
  intros Hi Hj Hs. split; [apply Hs|]. split.
  - by apply (swapped_contents d d' i j).
  - by apply (swapped_positions d d' i j).
Qed.

Lemma rearranged_refl d : rearranged d d.
Proof. by split; [|split]. Qed.

Lemma rearranged_trans d1 d2 d3 :
  rearranged d1 d2 → rearranged d2 d3 → rearranged d1 d3.
Proof.
  intros (L1 & P1 & C1) (L2 & P2 & C2). split; [lia|]. split.
  - by rewrite P2.
  - auto.
Qed.

Lemma Swap_swapped d i j :
  0 ≤ i < QItems_Len d → 0 ≤ j < QItems_Len d →
  ∃ d', QItems_Swap d i j = Ok d' ∧ swapped d d' i j.
Proof.
  intros Hi Hj. destruct (Swap_Ok d i j Hi Hj) as (d' & E & L & S).
  exists d'. by repeat split.
Qed.

(** ** Index arithmetic of the implicit tree *)

Lemma parent_lt k : 0 < k → 0 ≤ parent k < k.
Proof. unfold parent. lia. Qed.

Lemma parent_children i k :
  0 ≤ i → 0 < k → (parent k = i ↔ k = 2 * i + 1 ∨ k = 2 * i + 2).
Proof. unfold parent. lia. Qed.

Lemma parent_root : parent 0 = 0.
Proof. reflexivity. Qed.

End SwapFacts.

(** * Correctness of [up], [down] and their combination *)

Section HeapFacts.
Context {V : Type}.
Implicit Types (d h : QItems V) (e : QItem V) (i j k n : Z).

Lemma up_ready_done d j n :
  0 ≤ j → up_ready d j n → (j = 0 ∨ prio d j ≤ prio d (parent j)) → heap_upto d n.
Proof.
  intros Hj [H1 _] Hc k Hk.
  destruct (Z.eq_dec k j) as [->|Hne]; [|by apply H1].
  destruct Hc; [lia | done].
Qed.

Lemma up_ready_swapped d d1 j n :
  0 < j < n → swapped d d1 (parent j) j → prio d (parent j) < prio d j →
  up_ready d j n → up_ready d1 (parent j) n.
Proof.
  intros Hj Hs Hlt [H1 H2].
  pose proof (parent_lt j ltac:(lia)) as Hpj.
  set (i := parent j) in *.
  split.
  - intros k Hk Hki.
    pose proof (parent_lt k ltac:(lia)) as Hpk.
    rewrite !(swapped_prio d d1 i j) by done.
    destruct (Z.eqb_spec k j) as [->|Hkj].
    { fold i. rewrite Z.eqb_refl. destruct (Z.eqb_spec i j); lia. }
    destruct (Z.eqb_spec k i); [lia|].
    destruct (Z.eqb_spec (parent k) j) as [E|E].
    { specialize (H2 k Hk E). fold i in H2. lia. }
    destruct (Z.eqb_spec (parent k) i) as [E'|E'].
    { specialize (H1 k Hk Hkj). rewrite E' in H1. lia. }
    by apply H1.
  - intros k Hk Hpk Hi.
    pose proof (parent_lt i ltac:(lia)) as Hpi.
    rewrite !(swapped_prio d d1 i j) by done.
    destruct (Z.eqb_spec (parent i) j); [lia|].
    destruct (Z.eqb_spec (parent i) i); [lia|].
    assert (Hii : prio d i ≤ prio d (parent i)) by (apply H1; lia).
    destruct (Z.eqb_spec k j) as [->|Hkj]; [done|].
    pose proof (parent_lt k ltac:(lia)).
    destruct (Z.eqb_spec k i); [lia|].
    specialize (H1 k Hk Hkj). rewrite Hpk in H1. lia.
Qed.

Lemma up_loop_spec budget : ∀ d j,
  0 ≤ j < QItems_Len d → (Z.to_nat j < budget)%nat →
  ∃ d', up_loop budget d j = Ok d' ∧ rearranged d d' ∧
    (∀ k, j < k → slot d' k = slot d k) ∧
    (∀ n, j < n ≤ QItems_Len d → up_ready d j n → heap_upto d' n).
Proof.
  induction budget as [|b IH]; intros d j Hj Hb; [lia|].
  simpl. fold (parent j).
  destruct (Z.eqb_spec (parent j) j) as [E|E].
  { exists d. split; [done|]. split; [apply rearranged_refl|]. split; [done|].
    intros n Hn Hr. apply (up_ready_done d j n); [lia|done|].
    left. unfold parent in E. lia. }
  assert (Hj0 : 0 < j) by (unfold parent in E; lia).
  pose proof (parent_lt j Hj0) as Hp.
  rewrite Less_Ok by lia. simpl.
  destruct (Z.gtb_spec (prio d j) (prio d (parent j))) as [Hgt|Hle]; simpl.
  - destruct (Swap_swapped d (parent j) j) as (d1 & -> & Hs); [lia..|]. simpl.
    assert (Hr1 : rearranged d d1) by (apply (swapped_rearranged d d1 (parent j) j); [lia|lia|done]).
    destruct (IH d1 (parent j)) as (d' & E' & Hr & Hf & Hh).
    { destruct Hr1 as [-> _]. lia. } { lia. }
    exists d'. split; [done|]. split; [by eapply rearranged_trans|]. split.
    + intros k Hk. rewrite Hf by lia. apply (swapped_frame d d1 (parent j) j); [done|lia..].
    + intros n Hn Hup. apply Hh.
      * destruct Hr1 as [-> _]. lia.
      * apply (up_ready_swapped d); [lia|done|lia|done].
  - exists d. split; [done|]. split; [apply rearranged_refl|]. split; [done|].
    intros n Hn Hr. apply (up_ready_done d j n); [lia|done|]. right. lia.
Qed.

Lemma heap_upto_up_ready d j n : heap_upto d n → up_ready d j n.
Proof.
  intros H. split.
  - intros k Hk _. by apply H.
  - intros k Hk Hp Hj. pose proof (parent_lt k ltac:(lia)).
    etrans; [apply (H k Hk)|]. rewrite Hp. apply H. lia.
Qed.

Lemma down_ready_leaf d i n :
  0 ≤ i → n ≤ 2 * i + 1 → down_ready d i n → heap_upto d n.
Proof.
  intros Hi Hn [H1 _] k Hk. apply H1; [done|].
  intros E. apply (parent_children i k) in E; lia.
Qed.

Lemma down_ready_done d i n :
  0 ≤ i → (∀ k, 0 < k < n → parent k = i → prio d k ≤ prio d i) →
  down_ready d i n → heap_upto d n.
Proof.
  intros Hi Hc [H1 _] k Hk.
  destruct (Z.eq_dec (parent k) i) as [E|E]; [|by apply H1].
  rewrite E. by apply Hc.
Qed.

Lemma down_ready_swapped d d1 i j n :
  0 ≤ i → 0 < j < n → parent j = i →
  (∀ k, 0 < k < n → parent k = i → prio d k ≤ prio d j) →
  prio d i < prio d j → swapped d d1 i j →
  down_ready d i n → down_ready d1 j n.
Proof.
  intros Hi Hj Hpj Hbest Hlt Hs [H1 H2].
  pose proof (parent_lt j ltac:(lia)) as Hpj'. rewrite Hpj in Hpj'.
  split.
  - intros k Hk Hne.
    pose proof (parent_lt k ltac:(lia)) as Hpk.
    rewrite !(swapped_prio d d1 i j) by done.
    destruct (Z.eqb_spec (parent k) j) as [|_]; [done|].
    destruct (Z.eqb_spec k j) as [->|Hkj].
    { rewrite Hpj, Z.eqb_refl. lia. }
    destruct (Z.eqb_spec k i) as [->|Hki].
    { destruct (Z.eqb_spec (parent i) i); [lia|].
      specialize (H2 j Hj Hpj). lia. }
    destruct (Z.eqb_spec (parent k) i) as [E|E].
    { by apply Hbest. }
    by apply H1.
  - intros k Hk Hpk _.
    pose proof (parent_lt k ltac:(lia)) as Hpk'. rewrite Hpk in Hpk'.
    rewrite !(swapped_prio d d1 i j) by done.
    rewrite Hpj, Z.eqb_refl.
    destruct (Z.eqb_spec i j); [lia|].
    destruct (Z.eqb_spec k j); [lia|]. destruct (Z.eqb_spec k i); [lia|].
    specialize (H1 k Hk). rewrite Hpk in H1. apply H1. lia.
Qed.

Lemma down_loop_spec n budget : ∀ d i,
  0 ≤ i → n ≤ QItems_Len d → (Z.to_nat (n - i) < budget)%nat →
  ∃ d' i', down_loop budget d i n = Ok (d', i') ∧ rearranged d d' ∧
    i ≤ i' ∧ (i' = i → d' = d) ∧
    (∀ k, n ≤ k → slot d' k = slot d k) ∧
    (down_ready d i n → heap_upto d' n) ∧
    ((∀ k, 0 < k < n → parent k = i → prio d k ≤ prio d i) → i' = i).
Proof.
  induction budget as [|b IH]; intros d i Hi Hn Hb; [lia|].
  simpl.
  destruct (Z.geb_spec (2 * i + 1) n) as [Hge|Hlt1]; simpl.
  { exists d, i. split; [done|]. split; [apply rearranged_refl|].
    repeat split; try done. intros. by apply (down_ready_leaf d i n); [lia..|]. }
  destruct (Z.ltb_spec (2 * i + 1) 0) as [?|_]; [lia|].
  set (j1 := 2 * i + 1) in *. set (j2 := j1 + 1).
  assert (∃ less21 : bool,
    (if j2 <? n then QItems_Less d j2 j1 else Ok false) = Ok less21 ∧
    less21 = (j2 <? n) && (prio d j2 >? prio d j1)) as (less21 & -> & Hless).
  { destruct (Z.ltb_spec j2 n).
    - rewrite Less_Ok by lia. by eexists.
    - by eexists. }
  simpl. set (j := if less21 then j2 else j1).
  assert (Hj : j1 ≤ j ≤ j2 ∧ j < n).
  { unfold j. rewrite Hless. destruct (Z.ltb_spec j2 n); simpl; [|unfold j2; lia].
    destruct (prio d j2 >? prio d j1); unfold j2; lia. }
  assert (Hpj : parent j = i) by (apply parent_children; unfold j1, j2 in *; lia).
  assert (Hbest : ∀ k, 0 < k < n → parent k = i → prio d k ≤ prio d j).
  { intros k Hk Hpk. apply parent_children in Hpk; [|lia..].
    assert (k = j1 ∨ k = j2) as Hk12 by (unfold j2, j1; lia). clear Hpk.
    unfold j. rewrite Hless.
    destruct (Z.ltb_spec j2 n); simpl.
    - destruct (Z.gtb_spec (prio d j2) (prio d j1));
        destruct Hk12 as [->| ->]; lia.
    - destruct Hk12 as [->| ->]; lia. }
  rewrite Less_Ok by lia. simpl.
  destruct (Z.gtb_spec (prio d j) (prio d i)) as [Hgt|Hle]; simpl.
  - destruct (Swap_swapped d i j) as (d1 & -> & Hs); [lia..|]. simpl.
    assert (Hr1 : rearranged d d1)
      by (apply (swapped_rearranged d d1 i j); [lia|lia|done]).
    destruct (IH d1 j) as (d' & i' & E' & Hr & Hii & _ & Hf & Hh & _).
    { lia. } { destruct Hr1 as [-> _]. lia. } { lia. }
    exists d', i'. split; [done|]. split; [by eapply rearranged_trans|].
    split; [lia|]. split; [lia|]. split; [|split].
    + intros k Hk. rewrite Hf by lia.
      apply (swapped_frame d d1 i j); [done|lia..].
    + intros Hd. apply Hh. apply (down_ready_swapped d d1 i j n); try done; lia.
    + intros Hc. specialize (Hc j ltac:(lia) Hpj). lia.
  - exists d, i. split; [done|]. split; [apply rearranged_refl|].
    repeat split; try done. intros Hd.
    apply (down_ready_done d i n); [lia| |done].
    intros k Hk Hpk. specialize (Hbest k Hk Hpk). lia.
Qed.

Lemma heap_except_down_ready d i n :
  (i = 0 ∨ prio d i ≤ prio d (parent i)) → heap_except d i n → down_ready d i n.
Proof.
  intros Hc [H1 H2]. split; [|done].
  intros k Hk Hp. destruct (Z.eq_dec k i) as [->|Hne]; [|by apply H1].
  destruct Hc; [lia|done].
Qed.

Lemma heap_except_up_ready d i n :
  0 < i → prio d (parent i) < prio d i → heap_except d i n → up_ready d i n.
Proof.
  intros Hi Hlt [H1 H2]. split; [|done].
  intros k Hk Hne. destruct (Z.eq_dec (parent k) i) as [E|E]; [|by apply H1].
  specialize (H2 k Hk E Hi). rewrite E. lia.
Qed.

Lemma down_or_up_spec d i n :
  0 ≤ i < n → n ≤ QItems_Len d →
  ∃ d', down_or_up d i n = Ok d' ∧ rearranged d d' ∧
    (∀ k, n ≤ k → slot d' k = slot d k) ∧
    (heap_except d i n → heap_upto d' n).
Proof.
  intros Hi Hn. unfold down_or_up, down.
  destruct (down_loop_spec n (S (length d)) d i) as
    (d1 & i1 & -> & Hr1 & Hii & Hsame & Hf1 & Hh1 & Hnop);
    [lia|done|unfold QItems_Len in Hn; lia|].
  simpl.
  destruct (Z.gtb_spec i1 i) as [Hmoved|Hstay]; simpl.
  - exists d1. split; [done|]. split; [done|]. split; [done|].
    intros He. apply Hh1. apply heap_except_down_ready; [|done].
    destruct (Z.eq_dec i 0) as [|Hi0]; [by left|right].
    destruct (Z.le_gt_cases (prio d i) (prio d (parent i))) as [|Hbroken]; [done|].
    exfalso. assert (i1 = i); [|lia]. apply Hnop.
    intros k Hk Hpk. destruct He as [_ H2]. specialize (H2 k Hk Hpk). lia.
  - assert (i1 = i) as -> by lia. rewrite (Hsame eq_refl) in *.
    destruct (up_loop_spec (S (length d)) d i) as (d' & E & Hr & Hf & Hh);
      [lia|unfold QItems_Len in Hn; lia|].
    unfold up. rewrite E. exists d'. split; [done|]. split; [done|].
    split; [intros k Hk; apply Hf; lia|].
    intros He. apply Hh; [lia|].
    destruct (Z.eq_dec i 0) as [Hi0|Hi0].
    { apply heap_upto_up_ready, Hh1, heap_except_down_ready; [by left|done]. }
    destruct (Z.le_gt_cases (prio d i) (prio d (parent i))) as [Hok|Hbroken].
    { apply heap_upto_up_ready, Hh1, heap_except_down_ready; [by right|done]. }
    apply heap_except_up_ready; [lia|lia|done].
Qed.

(** ** The loop budgets are never exhausted *)

Lemma at_Ok_range d k e : at_ d k = Ok e → 0 ≤ k < QItems_Len d.
Proof.
  unfold at_. destruct (slot d k) eqn:E; [|done].
  intros _. by apply (slot_Some_range d k q).
Qed.

Lemma Less_Ok_range d i j (b : bool) :
  QItems_Less d i j = Ok b → 0 ≤ i < QItems_Len d ∧ 0 ≤ j < QItems_Len d.
Proof.
  unfold QItems_Less.
  destruct (at_ d i) as [x| |] eqn:Ei; simpl; [|done..].
  destruct (at_ d j) as [y| |] eqn:Ej; simpl; [|done..].
  intros _. split; [by apply (at_Ok_range d i x)|by apply (at_Ok_range d j y)].
Qed.

Lemma Swap_Ok_Len d i j d' :
  QItems_Swap d i j = Ok d' → QItems_Len d' = QItems_Len d.
Proof.
  intros H.
  assert (0 ≤ j < QItems_Len d ∧ 0 ≤ i < QItems_Len d) as [Hj Hi].
  { unfold QItems_Swap in H.
    destruct (at_ d j) as [y| |] eqn:Ej; simpl in H; [|done..].
    destruct (at_ d i) as [x| |] eqn:Ei; simpl in H; [|done..].
    split; [by apply (at_Ok_range d j y)|by apply (at_Ok_range d i x)]. }
  destruct (Swap_Ok d i j Hi Hj) as (d1 & E & L & _).
  rewrite E in H. by injection H as <-.
Qed.

Lemma up_total d j : up d j ≠ Exhausted.
Proof.
  destruct (decide (0 ≤ j < QItems_Len d)) as [Hj|Hj].
  - destruct (up_loop_spec (S (length d)) d j) as (d' & E & _);
      [done|unfold QItems_Len in Hj; lia|].
    unfold up. by rewrite E.
  - unfold up. simpl. destruct (_ =? _); [done|].
    unfold QItems_Less, at_. rewrite (proj2 (slot_None d j) Hj). done.
Qed.

Lemma at_cases d k : (∃ e, at_ d k = Ok e) ∨ at_ d k = Panic.
Proof. unfold at_. destruct (slot d k); eauto. Qed.

Lemma Less_cases d i j :
  (∃ b : bool, QItems_Less d i j = Ok b) ∨ QItems_Less d i j = Panic.
Proof.
  unfold QItems_Less.
  destruct (at_cases d i) as [[x ->]| ->]; simpl; [|by right].
  destruct (at_cases d j) as [[y ->]| ->]; simpl; [|by right].
  left. eauto.
Qed.

Lemma Swap_cases d i j :
  (∃ d', QItems_Swap d i j = Ok d') ∨ QItems_Swap d i j = Panic.
Proof.
  destruct (decide (0 ≤ j < QItems_Len d)) as [Hj|Hj].
  - destruct (decide (0 ≤ i < QItems_Len d)) as [Hi|Hi].
    + destruct (Swap_Ok d i j Hi Hj) as (d' & E & _). eauto.
    + right. destruct (proj2 (slot_is_Some d j) Hj) as [y Hy].
      unfold QItems_Swap. rewrite (at_Ok _ _ _ Hy). simpl.
      unfold at_. by rewrite (proj2 (slot_None d i) Hi).
  - right. unfold QItems_Swap, at_. by rewrite (proj2 (slot_None d j) Hj).
Qed.

Lemma down_loop_total n budget : ∀ d i,
  (Z.to_nat (QItems_Len d - i) < budget)%nat →
  down_loop budget d i n ≠ Exhausted.
Proof.
  induction budget as [|b IH]; intros d i Hb; [lia|].
  simpl. destruct (_ || _) eqn:Estop; [done|].
  apply orb_false_elim in Estop as [_ Hneg].
  apply Z.ltb_ge in Hneg.
  assert ((∃ less21 : bool,
            (if 2 * i + 1 + 1 <? n
             then QItems_Less d (2 * i + 1 + 1) (2 * i + 1) else Ok false)
            = Ok less21) ∨
          (if 2 * i + 1 + 1 <? n
           then QItems_Less d (2 * i + 1 + 1) (2 * i + 1) else Ok false)
          = Panic) as Hc.
  { destruct (_ <? n); [apply Less_cases|left; eauto]. }
  destruct Hc as [[less21 ->]| ->]; simpl; [|done].
  set (j := if less21 then 2 * i + 1 + 1 else 2 * i + 1).
  assert (i < j) by (unfold j; destruct less21; lia).
  destruct (Less_cases d j i) as [[lt EL]|EL]; rewrite EL; simpl; [|done].
  destruct lt; simpl; [|done].
  apply Less_Ok_range in EL as [Hj _].
  destruct (Swap_cases d i j) as [[d' ES]|ES]; rewrite ES; simpl; [|done].
  apply IH. rewrite (Swap_Ok_Len _ _ _ _ ES). lia.
Qed.

Lemma down_total d i n : down d i n ≠ Exhausted.
Proof.
  unfold down.
  destruct (decide (0 ≤ i)) as [Hi|Hi].
  - pose proof (down_loop_total n (S (length d)) d i) as H.
    destruct (down_loop _ d i n) as [[d' i']| |]; simpl; [done|done|].
    exfalso. apply H; [|done]. unfold QItems_Len. lia.
  - simpl. destruct (Z.ltb_spec (2 * i + 1) 0); [|lia].
    by rewrite orb_true_r.
Qed.

End HeapFacts.

(** * The operations of [container/heap] on the store *)

Section HeapOps.

Context {V : Type}.

Implicit Types (d h : QItems V) (e x : QItem V) (i j k n : Z).

(** ** The last slot *)

Lemma Len_snoc d x : QItems_Len (d ++ [x]) = QItems_Len d + 1.
Proof. unfold QItems_Len. rewrite length_app. simpl. lia. Qed.

Lemma slot_snoc d x k :
  slot (d ++ [x]) k =
    if k =? QItems_Len d then Some x
    else if k <? QItems_Len d then slot d k else None.
Proof.
  unfold slot, QItems_Len.
  destruct (Z.ltb_spec k 0) as [Hk|Hk].
  { destruct (Z.eqb_spec k (Z.of_nat (length d))); [lia|].
    by destruct (Z.ltb_spec k (Z.of_nat (length d))). }
  destruct (Z.eqb_spec k (Z.of_nat (length d))) as [->|Hne].
  { rewrite Nat2Z.id. apply list_lookup_middle. done. }
  destruct (Z.ltb_spec k (Z.of_nat (length d))).
  - apply lookup_app_l. lia.
  - apply lookup_ge_None. rewrite length_app. simpl. lia.
Qed.

Lemma prio_snoc d x k : 0 ≤ k < QItems_Len d → prio (d ++ [x]) k = prio d k.
Proof.
  intros Hk. unfold prio. rewrite slot_snoc.
  destruct (Z.eqb_spec k (QItems_Len d)); [lia|].
  destruct (Z.ltb_spec k (QItems_Len d)); [done|lia].
Qed.

Lemma contents_snoc d x : contents (d ++ [x]) ≡ₚ content x :: contents d.
Proof. unfold contents. rewrite fmap_app. simpl. by rewrite Permutation_app_comm. Qed.

Lemma heap_upto_snoc d x n :
  n ≤ QItems_Len d → (heap_upto (d ++ [x]) n ↔ heap_upto d n).
Proof.
  intros Hn. split; intros H k Hk; specialize (H k Hk);
    pose proof (parent_lt k ltac:(lia));
    rewrite !prio_snoc in * by lia; done.
Qed.

Lemma PositionConsistent_snoc d x :
  PositionConsistent (d ++ [x]) ↔ PositionConsistent d ∧ index x = QItems_Len d.
Proof.
  split.
  - intros H. split.
    + intros k e Hk. apply H. rewrite slot_snoc.
      apply slot_Some_range in Hk as Hr.
      destruct (Z.eqb_spec k (QItems_Len d)); [lia|].
      destruct (Z.ltb_spec k (QItems_Len d)); [done|lia].
    + apply H. by rewrite slot_snoc, Z.eqb_refl.
  - intros [H Hx] k e. rewrite slot_snoc.
    destruct (Z.eqb_spec k (QItems_Len d)) as [->|?]; [by intros [= <-]|].
    destruct (Z.ltb_spec k (QItems_Len d)); [apply H|done].
Qed.

Lemma snoc_last d :
  0 < QItems_Len d →
  ∃ d0 x, d = d0 ++ [x] ∧ QItems_Len d0 = QItems_Len d - 1.
Proof.
  intros Hd. destruct (proj2 (slot_is_Some d (QItems_Len d - 1))) as [x Hx]; [lia|].
  exists (take (Z.to_nat (QItems_Len d - 1)) d), x.
  unfold slot in Hx. destruct (Z.ltb_spec (QItems_Len d - 1) 0); [lia|].
  split.
  - rewrite <- (take_S_r _ _ _ Hx). symmetry. apply take_ge.
    unfold QItems_Len. lia.
  - unfold QItems_Len in *. rewrite length_take. lia.
Qed.

Lemma QItems_Pop_snoc d x :
  QItems_Pop (d ++ [x]) = Ok (d, set_index x (-1)).
Proof.
  unfold QItems_Pop. rewrite Len_snoc.
  replace (QItems_Len d + 1 - 1) with (QItems_Len d) by lia.
  rewrite (at_Ok _ _ x) by (by rewrite slot_snoc, Z.eqb_refl).
  simpl. do 2 f_equal. unfold QItems_Len. rewrite Nat2Z.id.
  by rewrite take_app_length.
Qed.

(** ** [heap.Push] *)

Lemma heap_Push_spec d x :
  ∃ d', heap_Push d x = Ok d' ∧
    QItems_Len d' = QItems_Len d + 1 ∧
    contents d' ≡ₚ content x :: contents d ∧
    (PositionConsistent d → PositionConsistent d') ∧
    (heap_upto d (QItems_Len d) → heap_upto d' (QItems_Len d')).
Proof.
  unfold heap_Push, QItems_Push, up.
  set (n := QItems_Len d). set (d1 := d ++ [set_index x n]).
  assert (L1 : QItems_Len d1 = n + 1) by apply Len_snoc.
  assert (Hn : 0 ≤ n) by (unfold n, QItems_Len; lia).
  destruct (up_loop_spec (S (length d1)) d1 (QItems_Len d1 - 1))
    as (d' & -> & (L & P & C) & _ & Hh); [lia|unfold QItems_Len; lia|].
  exists d'. split; [done|]. split; [lia|]. split; [|split].
  - rewrite P. unfold d1. by rewrite contents_snoc.
  - intros Hd. apply C. apply PositionConsistent_snoc. done.
  - intros Hd. rewrite L. apply Hh; [lia|]. rewrite L1.
    replace (n + 1 - 1) with n by lia. split.
    + intros k Hk Hne. pose proof (parent_lt k ltac:(lia)).
      unfold d1. rewrite !prio_snoc by (fold n; lia). apply Hd. fold n. lia.
    + intros k Hk Hp. pose proof (parent_lt k ltac:(lia)). lia.
Qed.

(** ** [heap.Pop] and [heap.Remove] *)

Lemma swapped_prio_other d d1 i j k :
  swapped d d1 i j → k ≠ i → k ≠ j → prio d1 k = prio d k.
Proof. intros Hs Hi Hj. unfold prio. by rewrite (swapped_frame d d1 i j). Qed.

(** Removing position [i]: what [Swap(i, n)] followed by a repair of the
    first [n] positions and [h.Pop()] achieves. *)
Lemma remove_at_spec d i (repair : QItems V → result (QItems V)) :
  0 ≤ i < QItems_Len d →
  (∀ d1, swapped d d1 i (QItems_Len d - 1) →
     ∃ d2, repair d1 = Ok d2 ∧ rearranged d1 d2 ∧
       (∀ k, QItems_Len d - 1 ≤ k → slot d2 k = slot d1 k) ∧
       (heap_upto d (QItems_Len d) → heap_upto d2 (QItems_Len d - 1))) →
  ∃ d' x, slot d i = Some x ∧
    (h1 ← QItems_Swap d i (QItems_Len d - 1); h2 ← repair h1; QItems_Pop h2)
      = Ok (d', set_index x (-1)) ∧
    QItems_Len d' = QItems_Len d - 1 ∧
    contents d ≡ₚ content x :: contents d' ∧
    (PositionConsistent d → PositionConsistent d') ∧
    (heap_upto d (QItems_Len d) → heap_upto d' (QItems_Len d')).
Proof.
  intros Hi Hrepair. set (n := QItems_Len d - 1) in *.
  destruct (proj2 (slot_is_Some d i) Hi) as [x Hx].
  destruct (Swap_swapped d i n) as (d1 & -> & Hs); [lia..|]. simpl.
  assert (Hr1 : rearranged d d1)
    by (apply (swapped_rearranged d d1 i n); [lia|lia|done]).
  destruct (Hrepair d1 Hs) as (d2 & -> & Hr2 & Hf & Hh). simpl.
  destruct (rearranged_trans _ _ _ Hr1 Hr2) as (L & P & C).
  destruct (snoc_last d2) as (d' & y & -> & L'); [lia|].
  assert (Hy : y = set_index x n).
  { assert (slot (d' ++ [y]) n = Some (set_index x n)) as Hlast.
    { rewrite Hf by lia. destruct Hs as [_ Hs]. rewrite Hs, Z.eqb_refl, Hx. done. }
    rewrite slot_snoc in Hlast. destruct (Z.eqb_spec n (QItems_Len d')); [|lia].
    by injection Hlast. }
  subst y. exists d', x. split; [done|]. rewrite QItems_Pop_snoc.
  split; [done|]. split; [lia|]. split; [|split].
  - rewrite <- P. by rewrite contents_snoc.
  - intros Hd. by apply (PositionConsistent_snoc d' (set_index x n)), C.
  - intros Hd. rewrite L'. rewrite L. fold n.
    apply (heap_upto_snoc d' (set_index x n)); [lia|]. by apply Hh.
Qed.

Lemma heap_Pop_spec d :
  0 < QItems_Len d →
  ∃ d' root, slot d 0 = Some root ∧
    heap_Pop d = Ok (d', set_index root (-1)) ∧
    QItems_Len d' = QItems_Len d - 1 ∧
    contents d ≡ₚ content root :: contents d' ∧
    (PositionConsistent d → PositionConsistent d') ∧
    (heap_upto d (QItems_Len d) → heap_upto d' (QItems_Len d')).
Proof.
  intros Hd. unfold heap_Pop. set (n := QItems_Len d - 1).
  destruct (remove_at_spec d 0 (λ h1, '(h2, _) ← down h1 0 n; Ok h2))
    as (d' & root & Hroot & E & Hrest); [lia| |].
  - intros d1 Hs. fold n in Hs. unfold down.
    assert (L1 : QItems_Len d1 = QItems_Len d) by apply Hs.
    destruct (down_loop_spec n (S (length d1)) d1 0)
      as (d2 & i2 & -> & Hr & _ & _ & Hf & Hh & _);
      [lia|lia|unfold QItems_Len in *; lia|].
    simpl. exists d2. split; [done|]. split; [done|]. split; [done|].
    intros Hheap. apply Hh. split; [|lia].
    intros k Hk Hp. pose proof (parent_lt k ltac:(lia)).
    rewrite !(swapped_prio_other d d1 0 n) by (done || lia).
    apply Hheap. lia.
  - exists d', root. split; [done|]. split; [|done].
    rewrite <- E. fold n.
    destruct (QItems_Swap d 0 n) as [h1| |]; simpl; [|done..].
    destruct (down h1 0 n) as [[h2 m]| |]; done.
Qed.

Lemma heap_Remove_spec d i :
  0 ≤ i < QItems_Len d →
  ∃ d' x, slot d i = Some x ∧
    heap_Remove d i = Ok (d', set_index x (-1)) ∧
    QItems_Len d' = QItems_Len d - 1 ∧
    contents d ≡ₚ content x :: contents d' ∧
    (PositionConsistent d → PositionConsistent d') ∧
    (heap_upto d (QItems_Len d) → heap_upto d' (QItems_Len d')).
Proof.
  intros Hi. unfold heap_Remove. set (n := QItems_Len d - 1).
  destruct (Z.eqb_spec n i) as [En|Hne]; simpl.
  - destruct (snoc_last d) as (d' & x & -> & L'); [lia|].
    subst n. rewrite Len_snoc in *. assert (i = QItems_Len d') as -> by lia.
    exists d', x. rewrite slot_snoc, Z.eqb_refl, QItems_Pop_snoc.
    split; [done|]. split; [done|]. split; [lia|]. split; [|split].
    + by rewrite contents_snoc.
    + intros H. by apply (PositionConsistent_snoc d' x).
    + intros H. apply (heap_upto_snoc d' x); [lia|].
      intros k Hk. apply H. lia.
  - destruct (remove_at_spec d i (λ h1, down_or_up h1 i n))
      as (d' & x & Hx & E & Hrest); [lia| |].
    + intros d1 Hs. fold n in Hs.
      assert (L1 : QItems_Len d1 = QItems_Len d) by apply Hs.
      destruct (down_or_up_spec d1 i n) as (d2 & -> & Hr & Hf & Hh); [lia..|].
      exists d2. split; [done|]. split; [done|]. split; [done|].
      intros Hheap. apply Hh. split.
      * intros k Hk Hki Hpk. pose proof (parent_lt k ltac:(lia)).
        rewrite !(swapped_prio_other d d1 i n) by (done || lia).
        apply Hheap. lia.
      * intros k Hk Hpk Hi0.
        pose proof (parent_lt k ltac:(lia)). pose proof (parent_lt i Hi0).
        rewrite !(swapped_prio_other d d1 i n) by (done || lia).
        etrans; [apply (Hheap k); lia|]. rewrite Hpk. apply Hheap. lia.
    + exists d', x. split; [done|]. split; [|done].
      rewrite <- E. fold n.
      destruct (QItems_Swap d i n) as [h1| |]; simpl; [|done..].
      destruct (down_or_up h1 i n); done.
Qed.

(** ** [heap.Fix] and the unexported helpers *)

Lemma heap_Fix_spec d i :
  0 ≤ i < QItems_Len d →
  ∃ d', heap_Fix d i = Ok d' ∧ rearranged d d' ∧
    (heap_except d i (QItems_Len d) → heap_upto d' (QItems_Len d')).
Proof.
  intros Hi. unfold heap_Fix.
  destruct (down_or_up_spec d i (QItems_Len d)) as (d' & -> & Hr & _ & Hh); [lia..|].
  exists d'. split; [done|]. split; [done|].
  destruct Hr as [-> _]. done.
Qed.

Lemma update_spec d p priority :
  PositionConsistent d → 0 ≤ p < QItems_Len d →
  ∃ d' x, slot d p = Some x ∧ update d p priority = Ok d' ∧
    rearranged (<[Z.to_nat p := set_Priority x priority]> d) d' ∧
    PositionConsistent d' ∧
    (heap_upto d (QItems_Len d) → heap_upto d' (QItems_Len d')).
Proof.
  intros Hpc Hp. destruct (proj2 (slot_is_Some d p) Hp) as [x Hx].
  unfold update. rewrite (at_Ok _ _ _ Hx). simpl.
  rewrite (store_Ok _ _ _ _ Hx). simpl.
  set (d1 := <[Z.to_nat p := set_Priority x priority]> d).
  assert (L1 : QItems_Len d1 = QItems_Len d) by apply Len_insert.
  assert (S1 : ∀ k, slot d1 k =
                 if k =? p then Some (set_Priority x priority) else slot d k)
    by (intros; by apply slot_insert).
  rewrite (Hpc p x Hx).
  destruct (heap_Fix_spec d1 p) as (d' & -> & Hr & Hh); [lia|].
  exists d', x. split; [done|]. split; [done|]. split; [done|].
  assert (PositionConsistent d1) as Hpc1.
  { intros k e. rewrite S1. destruct (Z.eqb_spec k p) as [->|?]; [|apply Hpc].
    intros [= <-]. simpl. by apply Hpc. }
  split; [by apply Hr|].
  intros Hheap. apply Hh. rewrite L1.
  assert (P1 : ∀ k, k ≠ p → prio d1 k = prio d k).
  { intros k Hk. unfold prio. rewrite S1. destruct (Z.eqb_spec k p); [lia|done]. }
  split.
  - intros k Hk Hkp Hpk. rewrite !P1 by done. by apply Hheap.
  - intros k Hk Hpk Hp0.
    pose proof (parent_lt k ltac:(lia)). pose proof (parent_lt p Hp0).
    rewrite !P1 by lia.
    etrans; [apply (Hheap k); lia|]. rewrite Hpk. apply Hheap. lia.
Qed.

Lemma delete_spec d index :
  0 ≤ index →
  (index < QItems_Len d ∧
   ∃ d' x, slot d index = Some x ∧ delete d index = Ok (d', None) ∧
     QItems_Len d' = QItems_Len d - 1 ∧
     contents d ≡ₚ content x :: contents d' ∧
     (PositionConsistent d → PositionConsistent d') ∧
     (heap_upto d (QItems_Len d) → heap_upto d' (QItems_Len d'))) ∨
  (QItems_Len d ≤ index ∧ delete d index = Ok (d, Some errIndexOutOfRange)).
Proof.
  intros Hi. unfold delete.
  destruct (Z.ltb_spec index (QItems_Len d)) as [Hlt|Hge]; [left|right; done].
  split; [done|].
  destruct (heap_Remove_spec d index) as (d' & x & Hx & -> & Hrest); [lia|].
  exists d', x. done.
Qed.

End HeapOps.

(** * The queue operations *)

Section Facade.

Context {V : Type}.

Implicit Types (d h : QItems V) (e x : QItem V) (i j k n : Z)
  (pq : PriorityQueue V).

(** ** The heap property, both ways of saying it *)

Lemma MaxHeap_heap_upto d : MaxHeap d ↔ heap_upto d (QItems_Len d).
Proof.
  split.
  - intros H k Hk. pose proof (parent_lt k ltac:(lia)).
    destruct (proj2 (slot_is_Some d k)) as [ei Hi]; [lia|].
    destruct (proj2 (slot_is_Some d (parent k))) as [ep Hp]; [lia|].
    rewrite (prio_slot _ _ _ Hi), (prio_slot _ _ _ Hp).
    apply (H k (parent k)); [lia|done..].
  - intros H i p ei ep Hi -> Si Sp.
    apply slot_Some_range in Si as Hr.
    rewrite <- (prio_slot _ _ _ Si), <- (prio_slot _ _ _ Sp). apply H. lia.
Qed.

Lemma heap_upto_root_max d :
  heap_upto d (QItems_Len d) →
  ∀ k, 0 ≤ k < QItems_Len d → prio d k ≤ prio d 0.
Proof.
  intros H.
  assert (∀ m : nat, ∀ k, 0 ≤ k ≤ Z.of_nat m → k < QItems_Len d →
            prio d k ≤ prio d 0) as G.
  { induction m as [|m IH]; intros k Hk Hlt.
    - assert (k = 0) as -> by lia. done.
    - destruct (Z.eq_dec k 0) as [->|Hne]; [done|].
      pose proof (parent_lt k ltac:(lia)).
      etrans; [apply (H k); lia|]. apply IH; lia. }
  intros k Hk. apply (G (Z.to_nat k)); lia.
Qed.

Lemma root_is_max d root :
  heap_upto d (QItems_Len d) → slot d 0 = Some root →
  ∀ e, e ∈ d → Priority e ≤ Priority root.
Proof.
  intros H Hroot e He.
  apply list_elem_of_lookup in He as [m Hm]. rewrite <- slot_of_nat in Hm.
  rewrite <- (prio_slot _ _ _ Hm), <- (prio_slot _ _ _ Hroot).
  apply heap_upto_root_max; [done|]. by apply (slot_Some_range _ _ e).
Qed.

Lemma Invariant_nil : Invariant (V:=V) [].
Proof.
  split.
  - intros k Hk. unfold QItems_Len in Hk. simpl in Hk. lia.
  - intros k e Hk. apply slot_Some_range in Hk. unfold QItems_Len in Hk.
    simpl in Hk. lia.
Qed.

(** ** [Push] and [Pop] *)

Lemma Push_spec pq x :
  ∃ pq', Push pq x = Ok pq' ∧
    Len pq' = Len pq + 1 ∧
    contents (data pq') ≡ₚ content x :: contents (data pq) ∧
    (Invariant (data pq) → Invariant (data pq')).
Proof.
  unfold Push, Len.
  destruct (heap_Push_spec (data pq) x) as (d' & -> & L & P & C & H).
  exists (set_data pq d'). simpl. split; [done|]. split; [done|]. split; [done|].
  intros [? ?]. split; auto.
Qed.

Lemma Pop_empty pq :
  Len pq = 0 → Pop pq = Ok (pq, (None, Some errEmpty)).
Proof.
  unfold Pop, Len. intros ->. done.
Qed.

Lemma Pop_spec pq :
  0 < Len pq →
  ∃ pq' root, slot (data pq) 0 = Some root ∧
    Pop pq = Ok (pq', (Some (set_index root (-1)), None)) ∧
    Len pq' = Len pq - 1 ∧
    contents (data pq) ≡ₚ content root :: contents (data pq') ∧
    (Invariant (data pq) → Invariant (data pq')).
Proof.
  unfold Pop, Len. intros Hn.
  destruct (Z.gtb_spec (QItems_Len (data pq)) 0) as [_|?]; [|lia].
  destruct (heap_Pop_spec (data pq) Hn) as (d' & root & Hr & -> & L & P & C & H).
  exists (set_data pq d'), root. simpl. repeat (split; [done|]).
  intros [? ?]. split; auto.
Qed.

(** ** [UpdatePriorityByParentId] *)

Lemma UpdatePriorityByParentId_loop_spec parentID priority positions :
  ∀ d itemsUpdated,
  Invariant d → Forall (λ i, 0 ≤ i < QItems_Len d) positions →
  ∃ d' n, UpdatePriorityByParentId_loop positions parentID priority d itemsUpdated
            = Ok (d', n) ∧
    QItems_Len d' = QItems_Len d ∧ Invariant d' ∧
    itemsUpdated ≤ n ≤ itemsUpdated + Z.of_nat (length positions).
Proof.
  induction positions as [|i rest IH]; intros d c Hinv Hpos; simpl.
  { exists d, c. repeat split; try apply Hinv; try done; lia. }
  inversion_clear Hpos as [|? ? Hi Hrest].
  destruct (proj2 (slot_is_Some d i) Hi) as [element He].
  rewrite (at_Ok _ _ _ He). simpl.
  destruct (String.eqb (ParentID element) parentID).
  - destruct Hinv as [Hheap Hpc]. rewrite (Hpc i element He).
    destruct (update_spec d i priority Hpc Hi) as (d1 & x & _ & -> & Hr & Hpc1 & Hh).
    simpl. assert (L1 : QItems_Len d1 = QItems_Len d).
    { destruct Hr as [-> _]. apply Len_insert. }
    destruct (IH d1 (c + 1)) as (d' & n & -> & L & Hinv' & Hn).
    { split; auto. } { by rewrite L1. }
    exists d', n. split; [done|]. split; [lia|]. split; [done|lia].
  - destruct (IH d c Hinv Hrest) as (d' & n & -> & L & Hinv' & Hn).
    exists d', n. split; [done|]. split; [lia|]. split; [done|lia].
Qed.

Lemma seqZ_range (n : Z) : Forall (λ i, 0 ≤ i < n) (seqZ 0 n).
Proof.
  apply list.Forall_forall. intros i Hi. apply elem_of_seqZ in Hi. lia.
Qed.

Lemma UpdatePriorityByParentId_spec pq parentID priority :
  Invariant (data pq) →
  ∃ pq' n, UpdatePriorityByParentId pq parentID priority = Ok (pq', n) ∧
    Len pq' = Len pq ∧ Invariant (data pq') ∧ 0 ≤ n ≤ Len pq.
Proof.
  intros Hinv. unfold UpdatePriorityByParentId, Len.
  destruct (UpdatePriorityByParentId_loop_spec parentID priority
              (seqZ 0 (QItems_Len (data pq))) (data pq) 0 Hinv)
    as (d' & n & -> & L & Hinv' & Hn); [apply seqZ_range|].
  exists (set_data pq d'), n. simpl. repeat (split; [done|]).
  rewrite length_seqZ in Hn. unfold QItems_Len in *. lia.
Qed.

(** ** [Clear] and [Destroy] *)

Lemma Clear_loop_spec budget : ∀ d,
  (length d ≤ budget)%nat → Clear_loop budget d = Ok [].
Proof.
  induction budget as [|b IH]; intros d Hb.
  - destruct d; [done|simpl in Hb; lia].
  - simpl. destruct (Z.gtb_spec (QItems_Len d) 0) as [Hpos|Hz].
    + destruct (heap_Pop_spec d Hpos) as (d' & root & _ & -> & L & _).
      simpl. apply IH. unfold QItems_Len in L. lia.
    + destruct d; [done|]. unfold QItems_Len in Hz. simpl in Hz. lia.
Qed.

Lemma Clear_spec pq : Clear pq = Ok (set_data pq []).
Proof. unfold Clear. by rewrite Clear_loop_spec. Qed.

Lemma Destroy_spec pq : Destroy pq = Ok (set_data pq []).
Proof. unfold Destroy. by rewrite Clear_spec. Qed.

(** ** [locateItemByID] and [DeleteItemById] *)

Lemma first_match (P : QItem V → bool) d :
  Forall (λ e, P e = false) d ∨
  ∃ pre x post, d = pre ++ x :: post ∧ Forall (λ e, P e = false) pre ∧ P x = true.
Proof.
  induction d as [|e d IH]; [by left|].
  destruct (P e) eqn:He.
  - right. exists [], e, d. done.
  - destruct IH as [IH|(pre & x & post & -> & Hpre & Hx)].
    + left. by constructor.
    + right. exists (e :: pre), x, post. split; [done|]. split; [|done].
      by constructor.
Qed.

Lemma locateItemByID_loop_none d id index0 :
  Forall (λ e, String.eqb (ID e) id = false) d →
  locateItemByID_loop d id index0 = index0.
Proof.
  induction 1 as [|e d He _ IH]; simpl; [done|]. by rewrite He.
Qed.

Lemma locateItemByID_loop_first pre x post id index0 :
  Forall (λ e, String.eqb (ID e) id = false) pre →
  String.eqb (ID x) id = true →
  locateItemByID_loop (pre ++ x :: post) id index0 = index x.
Proof.
  induction 1 as [|e d He _ IH]; simpl; intros Hx; [by rewrite Hx|].
  rewrite He. auto.
Qed.

Lemma slot_middle (pre : QItems V) x post :
  slot (pre ++ x :: post) (QItems_Len pre) = Some x.
Proof.
  unfold QItems_Len. rewrite slot_of_nat. by apply list_lookup_middle.
Qed.

Lemma Len_middle (pre : QItems V) x post :
  QItems_Len (pre ++ x :: post) = QItems_Len pre + 1 + QItems_Len post.
Proof. unfold QItems_Len. rewrite length_app. simpl. lia. Qed.

Lemma DeleteItemById_absent pq id :
  Forall (λ e, ID e ≠ id) (data pq) →
  DeleteItemById pq id = Ok (pq, Some (errNotFound id)).
Proof.
  intros H. unfold DeleteItemById, locateItemByID.
  rewrite locateItemByID_loop_none; [done|].
  eapply list.Forall_impl; [exact H|]. intros e He. simpl in He.
  by destruct (String.eqb_spec (ID e) id).
Qed.

Lemma DeleteItemById_present pq id pre x post :
  PositionConsistent (data pq) →
  data pq = pre ++ x :: post → Forall (λ e, ID e ≠ id) pre → ID x = id →
  ∃ pq', DeleteItemById pq id = Ok (pq', None) ∧
    Len pq' = Len pq - 1 ∧
    contents (data pq) ≡ₚ content x :: contents (data pq') ∧
    (Invariant (data pq) → Invariant (data pq')).
Proof.
  intros Hpc Hd Hpre Hx. unfold DeleteItemById, locateItemByID, Len.
  rewrite Hd, (locateItemByID_loop_first pre x post).
  2:{ eapply list.Forall_impl; [exact Hpre|]. intros e He. simpl in He.
      by destruct (String.eqb_spec (ID e) id). }
  2:{ by apply String.eqb_eq. }
  assert (Hslot : slot (data pq) (QItems_Len pre) = Some x)
    by (rewrite Hd; apply slot_middle).
  rewrite <- Hd. rewrite (Hpc _ _ Hslot).
  assert (Hp : 0 ≤ QItems_Len pre < QItems_Len (data pq)).
  { rewrite Hd, Len_middle. unfold QItems_Len. lia. }
  destruct (Z.eqb_spec (QItems_Len pre) (-1)) as [?|_]; [lia|].
  destruct (delete_spec (data pq) (QItems_Len pre)) as
    [(_ & d' & y & Hy & -> & L & P & C & H)|(? & _)]; [lia| |lia].
  simpl. rewrite Hslot in Hy. injection Hy as <-.
  exists (set_data pq d'). simpl. repeat (split; [done|]).
  intros [? ?]. split; auto.
Qed.

(** ** [DeleteItemsByParentId] *)

Lemma DeleteItemsByParentId_loop_spec positions : ∀ d itemsDeleted,
  Forall (λ i, 0 ≤ i) positions →
  ∃ d' n err,
    DeleteItemsByParentId_loop positions d itemsDeleted = Ok (d', (n, err)) ∧
    QItems_Len d' = QItems_Len d - (n - itemsDeleted) ∧
    0 ≤ n - itemsDeleted ≤ Z.of_nat (length positions) ∧
    (err = None → n - itemsDeleted = Z.of_nat (length positions)) ∧
    (err = None ∨ err = Some errIndexOutOfRange) ∧
    (Invariant d → Invariant d').
Proof.
  induction positions as [|i rest IH]; intros d c Hpos; simpl.
  { exists d, c, None. split; [done|]. split; [lia|]. split; [simpl; lia|].
    split; [simpl; lia|]. split; [by left|done]. }
  inversion_clear Hpos as [|? ? Hi Hrest].
  destruct (delete_spec d i Hi) as
    [(_ & d1 & y & _ & -> & L & _ & C & H)|(Hge & ->)]; simpl.
  - destruct (IH d1 (c + 1) Hrest) as (d' & n & err & -> & L' & Hn & Hnone & Herr & Hinv).
    exists d', n, err. split; [done|]. split; [lia|]. split; [lia|].
    split; [intros E; specialize (Hnone E); lia|]. split; [done|].
    intros [? ?]. apply Hinv. split; auto.
  - exists d, c, (Some errIndexOutOfRange). split; [done|]. split; [lia|].
    split; [lia|]. split; [done|]. split; [by right|done].
Qed.

Lemma DeleteItemsByParentId_spec pq parentID :
  ∃ pq' n err, DeleteItemsByParentId pq parentID = Ok (pq', (n, err)) ∧
    Len pq' = Len pq - n ∧ 0 ≤ n ∧
    (err = None ∨ err = Some errIndexOutOfRange) ∧
    (Invariant (data pq) → Invariant (data pq')).
Proof.
  unfold DeleteItemsByParentId, Len.
  set (m := Z.of_nat _).
  destruct (DeleteItemsByParentId_loop_spec (seqZ 0 m) (data pq) 0)
    as (d' & n & err & -> & L & Hn & _ & Herr & Hinv).
  { eapply list.Forall_impl; [apply seqZ_range|]. simpl. lia. }
  exists (set_data pq d'), n, err. simpl. split; [done|]. split; [lia|].
  split; [lia|]. done.
Qed.

(** ** Every run of public calls returns and keeps the invariants *)

Lemma exec_Invariant (c : call V) pq :
  Invariant (data pq) → ∃ pq', exec c pq = Ok pq' ∧ Invariant (data pq').
Proof.
  intros Hinv. destruct c as [x| | | | |parentID priority|id|parentID]; simpl.
  - destruct (Push_spec pq x) as (pq' & -> & _ & _ & H). eauto.
  - destruct (Z_lt_le_dec 0 (Len pq)) as [Hpos|Hz].
    + destruct (Pop_spec pq Hpos) as (pq' & root & _ & -> & _ & _ & H).
      simpl. eauto.
    + rewrite Pop_empty; [simpl; eauto|]. unfold Len, QItems_Len in *. lia.
  - eauto.
  - rewrite Clear_spec. eexists. split; [done|]. apply Invariant_nil.
  - rewrite Destroy_spec. eexists. split; [done|]. apply Invariant_nil.
  - destruct (UpdatePriorityByParentId_spec pq parentID priority Hinv)
      as (pq' & n & -> & _ & H & _). simpl. eauto.
  - destruct (first_match (λ e, String.eqb (ID e) id) (data pq))
      as [Hnone|(pre & x & post & Hd & Hpre & Hx)].
    + rewrite DeleteItemById_absent; [simpl; eauto|].
      eapply list.Forall_impl; [exact Hnone|]. intros e He. simpl in He.
      by destruct (String.eqb_spec (ID e) id).
    + destruct (DeleteItemById_present pq id pre x post) as (pq' & -> & _ & _ & H).
      * apply Hinv.
      * done.
      * eapply list.Forall_impl; [exact Hpre|]. intros e He. simpl in He.
        by destruct (String.eqb_spec (ID e) id).
      * by apply String.eqb_eq.
      * simpl. eauto.
  - destruct (DeleteItemsByParentId_spec pq parentID)
      as (pq' & n & err & -> & _ & _ & _ & H). simpl. eauto.
Qed.

Lemma run_Invariant (cs : list (call V)) : ∀ pq,
  Invariant (data pq) → ∃ pq', run cs pq = Ok pq' ∧ Invariant (data pq').
Proof.
  induction cs as [|c cs IH]; intros pq Hinv; simpl; [eauto|].
  destruct (exec_Invariant c pq Hinv) as (pq1 & -> & H1). simpl. auto.
Qed.

Lemma run_from_new (cs : list (call V)) :
  ∃ pq, run cs NewPriorityQueue = Ok pq ∧ Invariant (data pq).
Proof. apply run_Invariant. apply Invariant_nil. Qed.

Lemma reachable_Invariant (cs : list (call V)) pq :
  run cs NewPriorityQueue = Ok pq → Invariant (data pq).
Proof.
  intros H. destruct (run_from_new cs) as (pq' & E & Hinv).
  rewrite H in E. by injection E as <-.
Qed.

End Facade.

(** * Draining the queue *)

Section Drain.

Context {V : Type}.

Implicit Types (d h : QItems V) (e x : QItem V) (i j k n : Z)
  (pq : PriorityQueue V).

Lemma content_Priority e e' : content e = content e' → Priority e = Priority e'.
Proof. unfold content. by intros [= _ _ _ ->]. Qed.

Lemma content_ID e e' : content e = content e' → ID e = ID e'.
Proof. unfold content. by intros [= -> _ _ _]. Qed.

Lemma contents_elem e d : content e ∈ contents d → ∃ e', e' ∈ d ∧ content e = content e'.
Proof.
  unfold contents. rewrite list_elem_of_fmap. intros (e' & ? & ?). eauto.
Qed.

Lemma drain_loop_spec budget : ∀ pq,
  Len pq ≤ Z.of_nat budget →
  ∃ items, drain_loop budget pq = Ok items ∧
    content <$> items ≡ₚ contents (data pq) ∧
    Forall (λ x, index x = -1) items ∧
    (Invariant (data pq) →
     StronglySorted (λ a b, Priority b ≤ Priority a) items).
Proof.
  induction budget as [|b IH]; intros pq Hb.
  - assert (data pq = []) as Hnil.
    { unfold Len, QItems_Len in Hb. destruct (data pq); [done|simpl in Hb; lia]. }
    exists []. unfold drain_loop, Len. rewrite Hnil. simpl.
    repeat split; try done; constructor.
  - simpl. destruct (Z.gtb_spec (Len pq) 0) as [Hpos|Hz].
    + destruct (Pop_spec pq) as (pq' & root & Hroot & -> & L & P & Hinv); [lia|].
      simpl. destruct (IH pq') as (rest & -> & Prest & Hidx & Hsorted); [lia|].
      simpl. exists (set_index root (-1) :: rest). split; [done|].
      split; [|split].
      * rewrite P. simpl. by rewrite Prest.
      * by constructor.
      * intros Hi. constructor; [by apply Hsorted, Hinv|].
        apply list.Forall_forall. intros e' He'. simpl.
        assert (content e' ∈ contents (data pq)) as Hin.
        { rewrite P. apply list_elem_of_further. rewrite <- Prest.
          by apply list_elem_of_fmap_2. }
        apply contents_elem in Hin as (e & He & Hc).
        rewrite (content_Priority _ _ Hc).
        by apply (root_is_max (data pq) root); [apply Hi|..].
    + assert (data pq = []) as Hnil.
      { unfold Len, QItems_Len in Hz. destruct (data pq); [done|simpl in Hz; lia]. }
      exists []. rewrite Hnil. simpl. repeat split; try done; constructor.
Qed.

Lemma drain_spec pq :
  ∃ items, drain pq = Ok items ∧
    content <$> items ≡ₚ contents (data pq) ∧
    Forall (λ x, index x = -1) items ∧
    (Invariant (data pq) →
     StronglySorted (λ a b, Priority b ≤ Priority a) items).
Proof. apply drain_loop_spec. unfold Len, QItems_Len. lia. Qed.

Lemma ge_antisym : AntiSymm (=) (λ a b : Z, b ≤ a).
Proof. intros a b ? ?. lia. Qed.

(** Draining yields the stored priorities in descending order, whatever
    order they were stored in. *)
Lemma drain_priorities pq (ps : list Z) :
  Invariant (data pq) →
  Priority <$> data pq ≡ₚ ps →
  StronglySorted (λ a b : Z, b ≤ a) ps →
  ∃ items, drain pq = Ok items ∧ Priority <$> items = ps.
Proof.
  intros Hinv Hperm Hps.
  destruct (drain_spec pq) as (items & E & P & _ & Hs).
  exists items. split; [done|].
  apply (@StronglySorted_unique Z (λ a b : Z, b ≤ a) ge_antisym); [|done|].
  - apply (StronglySorted_fmap Priority (λ a b : QItem V, Priority b ≤ Priority a)
             (λ a b : Z, b ≤ a)); [by intros ? ?|]. by apply Hs.
  - rewrite <- Hperm.
    assert (∀ l : list (QItem V), Priority <$> l = (λ c, c.2) <$> (content <$> l)) as F.
    { intros l. rewrite <- list_fmap_compose. done. }
    rewrite !F. unfold contents in P. by rewrite P.
Qed.

(** ** Parts of the group operations that do hold *)

Lemma UpdatePriorityByParentId_loop_no_match parentID priority positions :
  ∀ d itemsUpdated,
  Forall (λ e, ParentID e ≠ parentID) d →
  Forall (λ i, 0 ≤ i < QItems_Len d) positions →
  UpdatePriorityByParentId_loop positions parentID priority d itemsUpdated
    = Ok (d, itemsUpdated).
Proof.
  induction positions as [|i rest IH]; intros d c Hd Hpos; simpl; [done|].
  inversion_clear Hpos as [|? ? Hi Hrest].
  destruct (proj2 (slot_is_Some d i) Hi) as [element He].
  rewrite (at_Ok _ _ _ He). simpl.
  assert (element ∈ d) as Hin.
  { unfold slot in He. destruct (i <? 0); [done|].
    by apply list_elem_of_lookup_2 in He. }
  pose proof (proj1 (list.Forall_forall _ _) Hd _ Hin) as Hne.
  destruct (String.eqb_spec (ParentID element) parentID); [done|].
  by apply IH.
Qed.

Lemma UpdatePriorityByParentId_no_match pq parentID priority :
  Forall (λ e, ParentID e ≠ parentID) (data pq) →
  UpdatePriorityByParentId pq parentID priority = Ok (pq, 0).
Proof.
  intros H. unfold UpdatePriorityByParentId.
  rewrite UpdatePriorityByParentId_loop_no_match; [|done|apply seqZ_range].
  simpl. by destruct pq.
Qed.

Lemma DeleteItemById_in_range (cs : list (call V)) pq id pq' err :
  run cs NewPriorityQueue = Ok pq →
  DeleteItemById pq id = Ok (pq', Some err) → err = errNotFound id ∧ pq' = pq.
Proof.
  intros Hrun. apply reachable_Invariant in Hrun as Hinv.
  destruct (first_match (λ e, String.eqb (ID e) id) (data pq))
    as [Hnone|(pre & x & post & Hd & Hpre & Hx)].
  - rewrite DeleteItemById_absent; [by intros [= <- <-]|].
    eapply list.Forall_impl; [exact Hnone|]. intros e He. simpl in He.
    by destruct (String.eqb_spec (ID e) id).
  - destruct (DeleteItemById_present pq id pre x post) as (pq1 & -> & _).
    + apply Hinv.
    + done.
    + eapply list.Forall_impl; [exact Hpre|]. intros e He. simpl in He.
      by destruct (String.eqb_spec (ID e) id).
    + by apply String.eqb_eq.
    + done.
Qed.

Lemma QItems_Pop_index d d' x : QItems_Pop d = Ok (d', x) → index x = -1.
Proof.
  unfold QItems_Pop. destruct (at_ d (QItems_Len d - 1)); simpl; [|done..].
  by intros [= _ <-].
Qed.

Lemma heap_Remove_index d i d' x : heap_Remove d i = Ok (d', x) → index x = -1.
Proof.
  unfold heap_Remove.
  destruct (if negb _ then _ else _) as [h1| |]; simpl; [|done..].
  apply QItems_Pop_index.
Qed.

Lemma heap_Pop_index d d' x : heap_Pop d = Ok (d', x) → index x = -1.
Proof.
  unfold heap_Pop.
  destruct (QItems_Swap _ _ _) as [h1| |]; simpl; [|done..].
  destruct (down _ _ _) as [[h2 m]| |]; simpl; [|done..].
  apply QItems_Pop_index.
Qed.

Lemma Pop_index pq pq' x err : Pop pq = Ok (pq', (Some x, err)) → index x = -1.
Proof.
  unfold Pop. destruct (_ >? _); [|done].
  destruct (heap_Pop (data pq)) as [[d r]| |] eqn:E; simpl; [|done..].
  intros [= _ <- _]. by apply heap_Pop_index in E.
Qed.

(** An error result of a single-entry operation leaves the queue as it
    was; this needs no assumption on the queue. *)
Lemma Pop_error_unchanged pq pq' (r : option (QItem V)) err :
  Pop pq = Ok (pq', (r, Some err)) → pq' = pq ∧ r = None ∧ err = errEmpty.
Proof.
  unfold Pop. destruct (_ >? _).
  - destruct (heap_Pop (data pq)) as [[d top]| |]; simpl; done.
  - by intros [= <- <- <-].
Qed.

Lemma DeleteItemById_error_unchanged pq id pq' err :
  DeleteItemById pq id = Ok (pq', Some err) → pq' = pq.
Proof.
  unfold DeleteItemById. destruct (locateItemByID pq id) as [index [e|]].
  - by intros [= <- _].
  - unfold delete. destruct (_ <? _).
    + destruct (heap_Remove _ _) as [[q1 r]| |]; simpl; done.
    + simpl. intros [= <- _]. by destruct pq.
Qed.

End Drain.

(** * Further consequences used by the results below *)

Section Consequences.

Context {V : Type}.

Implicit Types (d h : QItems V) (e x : QItem V) (i j k n : Z)
  (pq : PriorityQueue V).

Lemma Forall_ID_eqb (l : QItems V) id :
  Forall (λ e, String.eqb (ID e) id = false) l ↔ Forall (λ e, ID e ≠ id) l.
Proof.
  split; intros H; (eapply list.Forall_impl; [exact H|]); intros e He;
    simpl in *; by destruct (String.eqb_spec (ID e) id).
Qed.

Lemma Pop_success pq pq' (r : option (QItem V)) :
  Pop pq = Ok (pq', (r, None)) →
  ∃ root, slot (data pq) 0 = Some root ∧ r = Some (set_index root (-1)) ∧
    Len pq' = Len pq - 1 ∧
    contents (data pq) ≡ₚ content root :: contents (data pq').
Proof.
  intros H. destruct (Z_lt_le_dec 0 (Len pq)) as [Hpos|Hz].
  - destruct (Pop_spec pq Hpos) as (pq1 & root & Hroot & E & L & P & _).
    rewrite E in H. injection H as <- <-. eauto.
  - rewrite Pop_empty in H; [done|]. unfold Len, QItems_Len in *. lia.
Qed.

Lemma DeleteItemById_success pq id pq' :
  PositionConsistent (data pq) →
  DeleteItemById pq id = Ok (pq', None) →
  ∃ pre x post, data pq = pre ++ x :: post ∧
    Forall (λ e, ID e ≠ id) pre ∧ ID x = id ∧
    Len pq' = Len pq - 1 ∧
    contents (data pq) ≡ₚ content x :: contents (data pq').
Proof.
  intros Hpc H.
  destruct (first_match (λ e, String.eqb (ID e) id) (data pq))
    as [Hnone|(pre & x & post & Hd & Hpre & Hx)].
  - rewrite DeleteItemById_absent in H; [done|]. by apply Forall_ID_eqb.
  - apply Forall_ID_eqb in Hpre. apply String.eqb_eq in Hx.
    destruct (DeleteItemById_present pq id pre x post Hpc Hd Hpre Hx)
      as (pq1 & E & L & P & _).
    rewrite E in H. injection H as <-. exists pre, x, post. done.
Qed.

Lemma indexesToDelete_length d parentID :
  Z.of_nat (length (indexesToDelete d parentID)) ≤ QItems_Len d.
Proof.
  unfold indexesToDelete, QItems_Len. rewrite length_fmap.
  pose proof (length_filter (λ element : QItem V, ParentID element = parentID) d).
  lia.
Qed.

Lemma DeleteItemsByParentId_error pq parentID pq' n err :
  DeleteItemsByParentId pq parentID = Ok (pq', (n, Some err)) →
  0 < n ∧ Len pq' = Len pq - n ∧ err = errIndexOutOfRange.
Proof.
  unfold DeleteItemsByParentId, Len.
  pose proof (indexesToDelete_length (data pq) parentID) as Hm.
  set (m := Z.of_nat _) in *.
  destruct (Z_lt_le_dec 0 m) as [Hpos|Hz].
  - rewrite seqZ_cons by done. simpl.
    destruct (delete_spec (data pq) 0) as
      [(_ & d1 & y & _ & -> & L & _)|(Hge & _)]; [lia| |lia].
    simpl.
    destruct (DeleteItemsByParentId_loop_spec (seqZ (Z.succ 0) (Z.pred m)) d1 (0 + 1))
      as (d' & n' & err' & -> & L' & Hn & _ & Herr & _).
    { apply list.Forall_forall. intros i Hi. apply elem_of_seqZ in Hi. lia. }
    simpl. intros [= <- <- ->]. simpl. split; [lia|]. split; [lia|].
    destruct Herr as [|[= ->]]; done.
  - rewrite seqZ_nil by lia. simpl. done.
Qed.

End Consequences.

(** * Results *)

(** ** Group delete *)

(** C1 (the code departs from it).  [DeleteItemsByParentId] does not remove
    the entries of the group: its second loop ranges over the positions
    [0 .. k-1] of the collected list and deletes those store positions.  With
    one entry of another group on top of one entry of group ["g"], deleting
    group ["g"] reports one removal, removes the other group's entry and
    keeps the entry of group ["g"].  In the scenario of the test suite (ten
    populated entries, then two entries of group ["parentid"]) it reports
    two removals and both entries of group ["parentid"] are still stored. *)
Theorem DeleteItemsByParentId_deletes_leading_positions :
  (∃ pq, pushed [entry "a" "keep" 10; entry "b" "g" 5] = Ok pq ∧
     DeleteItemsByParentId pq "g" =
       Ok (mkPriorityQueue false [mkQItem "b" "g" "test" 5 0], (1, None))) ∧
  (∃ pq pq',
     (pq0 ← populateQueue NewPriorityQueue 10;
      pq1 ← Push pq0 (mkQItem "testitemID" "parentid" "test" 7 0);
      Push pq1 (mkQItem "testitemID" "parentid" "test2" 7 0)) = Ok pq ∧
     DeleteItemsByParentId pq "parentid" = Ok (pq', (2, None)) ∧
     (λ e, (ParentID e, Priority e)) <$> data pq' =
       [("12345", 9); ("12345", 7); ("parentid", 7); ("12345", 4);
        ("parentid", 7); ("12345", 6); ("12345", 5); ("12345", 1);
        ("12345", 2); ("12345", 3)]).
Proof.
  split.
  - eexists. split; vm_compute; reflexivity.
  - do 2 eexists. split; [vm_compute; reflexivity|].
    split; vm_compute; reflexivity.
Qed.

(** ** Group update *)

(** C2 (the code departs from it).  [UpdatePriorityByParentId] walks the
    store while [heap.Fix] rearranges it.  When the new priority is lower,
    the entry just updated sinks to a later position and is met again, and
    the entry that rose into its place is never visited.  With two entries
    of group ["g"] at priorities 10 and 9, lowering the group to priority 1
    returns 2 although only entry ["a"] was changed (twice); entry ["b"] of
    group ["g"] keeps priority 9. *)
Theorem UpdatePriorityByParentId_misses_risen_entry :
  ∃ pq, pushed [entry "a" "g" 10; entry "b" "g" 9] = Ok pq ∧
    UpdatePriorityByParentId pq "g" 1 =
      Ok (mkPriorityQueue false
            [mkQItem "b" "g" "test" 9 0; mkQItem "a" "g" "test" 1 1], 2).
Proof. eexists. split; vm_compute; reflexivity. Qed.

(** The scenario of the test suite does hold: ten entries of one group
    raised to priority 500 are all updated and all drained at 500. *)
Lemma UpdatePriorityByParentId_test_scenario :
  (pq ← populateQueue NewPriorityQueue 10;
   '(pq', n) ← UpdatePriorityByParentId pq "12345" 500;
   items ← drain pq';
   Ok (n, map Priority items))
  = Ok (10, [500; 500; 500; 500; 500; 500; 500; 500; 500; 500]).
Proof. vm_compute. reflexivity. Qed.

(** ** Error results and the state of the store *)

(** C3 (the code departs from it).  An operation that returns an error
    must leave the store as it was.  With two entries of one group,
    [DeleteItemsByParentId] deletes position 0, then calls [delete] with
    position 1 on the store of length 1 that is left: it returns the
    "Index out of range" error with the count 1, and the store has lost
    entry ["a"] while entry ["b"] of the group is still stored. *)
Lemma DeleteItemsByParentId_error_after_removal :
  ∃ pq, pushed [entry "a" "g" 10; entry "b" "g" 9] = Ok pq ∧
    data pq = [mkQItem "a" "g" "test" 10 0; mkQItem "b" "g" "test" 9 1] ∧
    DeleteItemsByParentId pq "g" =
      Ok (mkPriorityQueue false [mkQItem "b" "g" "test" 9 0],
          (1, Some errIndexOutOfRange)).
Proof. eexists. split; [|split]; vm_compute; reflexivity. Qed.

(** What the single-entry operations do keep.  On every queue the public
    interface can produce: [Pop] and [DeleteItemById] leave the queue
    exactly as it was when they return an error, while an error of
    [DeleteItemsByParentId] always comes after [n >= 1] removals that stay
    applied.  Without an error, [Push] has added the entry, [Pop] has
    removed and returned the entry at position 0, and [DeleteItemById]
    has removed the first entry with the given ID. *)
Theorem error_results_and_store (V : Type) (cs : list (call V))
    (pq : PriorityQueue V) :
  run cs NewPriorityQueue = Ok pq →
  (∀ pq' r err, Pop pq = Ok (pq', (r, Some err)) → pq' = pq) ∧
  (∀ id pq' err, DeleteItemById pq id = Ok (pq', Some err) → pq' = pq) ∧
  (∀ parentID pq' n err,
     DeleteItemsByParentId pq parentID = Ok (pq', (n, Some err)) →
     0 < n ∧ Len pq' = Len pq - n) ∧
  (∀ x, ∃ pq', Push pq x = Ok pq' ∧
     contents (data pq') ≡ₚ content x :: contents (data pq)) ∧
  (∀ pq' r, Pop pq = Ok (pq', (r, None)) →
     ∃ root, slot (data pq) 0 = Some root ∧ r = Some (set_index root (-1)) ∧
       contents (data pq) ≡ₚ content root :: contents (data pq')) ∧
  (∀ id pq', DeleteItemById pq id = Ok (pq', None) →
     ∃ pre x post, data pq = pre ++ x :: post ∧
       Forall (λ e, ID e ≠ id) pre ∧ ID x = id ∧
       contents (data pq) ≡ₚ content x :: contents (data pq')).
Proof.
  intros Hrun. apply reachable_Invariant in Hrun as [_ Hpc].
  split; [|split; [|split; [|split; [|split]]]].
  - intros pq' r err H. by apply Pop_error_unchanged in H as [? _].
  - intros id pq' err H. by apply DeleteItemById_error_unchanged in H.
  - intros parentID pq' n err H.
    apply DeleteItemsByParentId_error in H as (? & ? & _). done.
  - intros x. destruct (Push_spec pq x) as (pq' & E & _ & P & _). eauto.
  - intros pq' r H. apply Pop_success in H as (root & ? & ? & _ & ?). eauto.
  - intros id pq' H.
    apply DeleteItemById_success in H as (pre & x & post & ? & ? & ? & _ & ?);
      [|done].
    exists pre, x, post. done.
Qed.

Lemma error_results_and_store_witness :
  (mkPriorityQueue false [mkQItem "a" "g" "test" 10 0] : PriorityQueue string)
    = mkPriorityQueue false [mkQItem "a" "g" "test" 10 0] ∧
  (0 < 1 ∧
   Len (mkPriorityQueue false [mkQItem "b" "g" "test" 9 0] : PriorityQueue string)
     = Len (mkPriorityQueue false
              [mkQItem "a" "g" "test" 10 0; mkQItem "b" "g" "test" 9 1]) - 1).
Proof.
  split.
  - assert (run [CallPush (entry "a" "g" 10)] NewPriorityQueue
            = Ok (mkPriorityQueue false [mkQItem "a" "g" "test" 10 0])) as Hrun
      by (vm_compute; reflexivity).
    apply (proj1 (proj2 (error_results_and_store string _ _ Hrun))
             "zz"%string _ (errNotFound "zz")).
    vm_compute. reflexivity.
  - assert (run [CallPush (entry "a" "g" 10); CallPush (entry "b" "g" 9)]
              NewPriorityQueue
            = Ok (mkPriorityQueue false
                    [mkQItem "a" "g" "test" 10 0; mkQItem "b" "g" "test" 9 1]))
      as Hrun by (vm_compute; reflexivity).
    apply (proj1 (proj2 (proj2 (error_results_and_store string _ _ Hrun)))
             "g"%string _ 1 errIndexOutOfRange).
    vm_compute. reflexivity.
Defined.

(** ** Reachability of the out-of-range error *)

(** C4 (the code departs from it).  The "Index out of range" branch of
    [delete] is reached through [DeleteItemsByParentId]: with three
    entries of one group the loop calls [delete] with positions 0, 1 and 2
    while the store shrinks to length 1, so the third call is out of range
    and its error is returned to the caller. *)
Theorem DeleteItemsByParentId_reaches_index_out_of_range :
  ∃ pq, pushed [entry "a" "g" 10; entry "b" "g" 9; entry "c" "g" 8] = Ok pq ∧
    DeleteItemsByParentId pq "g" =
      Ok (mkPriorityQueue false [mkQItem "b" "g" "test" 9 0],
          (2, Some errIndexOutOfRange)).
Proof. eexists. split; vm_compute; reflexivity. Qed.

(** [DeleteItemById] does keep the error unreachable: on every queue the
    public interface can produce, its only error is the not-found one. *)
Lemma DeleteItemById_only_not_found (V : Type) (cs : list (call V))
    (pq pq' : PriorityQueue V) (id : string) (err : error) :
  run cs NewPriorityQueue = Ok pq →
  DeleteItemById pq id = Ok (pq', Some err) → err = errNotFound id.
Proof. intros Hrun H. by destruct (DeleteItemById_in_range cs pq id pq' err). Qed.

(** ** Pop and the maximum *)

(** C5.  On every non-empty queue the public interface can produce, [Pop]
    succeeds, removes the entry at position 0 and returns it (with its
    [index] reset), and no stored entry has a larger priority.  Hence,
    when the stored priorities are 1 to 10 in whatever order, draining the
    queue by repeated [Pop] yields the priorities 10, 9, ..., 1. *)
Theorem Pop_returns_maximum (V : Type) (cs : list (call V))
    (pq : PriorityQueue V) :
  run cs NewPriorityQueue = Ok pq →
  (0 < Len pq →
     ∃ pq' root, slot (data pq) 0 = Some root ∧
       Pop pq = Ok (pq', (Some (set_index root (-1)), None)) ∧
       (∀ e, e ∈ data pq → Priority e ≤ Priority root) ∧
       Len pq' = Len pq - 1 ∧
       contents (data pq) ≡ₚ content root :: contents (data pq')) ∧
  (Priority <$> data pq ≡ₚ [1; 2; 3; 4; 5; 6; 7; 8; 9; 10] →
     ∃ items, drain pq = Ok items ∧
       Priority <$> items = [10; 9; 8; 7; 6; 5; 4; 3; 2; 1]).
Proof.
  intros Hrun. apply reachable_Invariant in Hrun as Hinv. split.
  - intros Hpos.
    destruct (Pop_spec pq Hpos) as (pq' & root & Hroot & E & L & P & _).
    exists pq', root. repeat (split; [done|]). split; [|done].
    by apply root_is_max; [apply Hinv|].
  - intros Hperm. apply drain_priorities; [done| |repeat constructor; lia].
    rewrite Hperm. apply (bool_decide_unpack _). vm_compute. exact I.
Qed.

Lemma Pop_returns_maximum_witness :
  (∃ pq' root, slot (data (populated 10)) 0 = Some root ∧
     Pop (populated 10) = Ok (pq', (Some (set_index root (-1)), None)) ∧
     (∀ e, e ∈ data (populated 10) → Priority e ≤ Priority root) ∧
     Len pq' = Len (populated 10) - 1 ∧
     contents (data (populated 10)) ≡ₚ content root :: contents (data pq')) ∧
  (∃ items, drain (populated 10) = Ok items ∧
     Priority <$> items = [10; 9; 8; 7; 6; 5; 4; 3; 2; 1]).
Proof.
  destruct (Pop_returns_maximum string (populateCalls 10) (populated 10))
    as [H1 H2]; [vm_compute; reflexivity|].
  split.
  - apply H1. vm_compute. reflexivity.
  - apply H2. apply (bool_decide_unpack _). vm_compute. exact I.
Defined.

(** ** The two invariants *)

(** C6.  Every sequence of public calls on a fresh queue returns, and the
    store it leaves has the max-heap property: whenever position [i] has a
    parent position [p], the entry at [p] has priority at least that of
    the entry at [i]. *)
Theorem max_heap_invariant (V : Type) (cs : list (call V)) :
  ∃ pq, run cs NewPriorityQueue = Ok pq ∧ MaxHeap (data pq).
Proof.
  destruct (run_from_new cs) as (pq & E & Hheap & _).
  exists pq. split; [done|]. by apply MaxHeap_heap_upto.
Qed.

(** C7.  Every sequence of public calls on a fresh queue returns, and in
    the store it leaves every entry's [index] field is the position it is
    stored at; as this holds after every call, it holds before the next
    one.  An entry taken out of the store, by [Pop] or by the
    [heap.Pop] / [heap.Remove] underlying [Clear] and the two deletions,
    has [index] -1. *)
Theorem position_consistency_invariant (V : Type) (cs : list (call V)) :
  ∃ pq, run cs NewPriorityQueue = Ok pq ∧
    PositionConsistent (data pq) ∧
    (∀ pq' x err, Pop pq = Ok (pq', (Some x, err)) → index x = -1) ∧
    (∀ d' x, heap_Pop (data pq) = Ok (d', x) → index x = -1) ∧
    (∀ i d' x, heap_Remove (data pq) i = Ok (d', x) → index x = -1).
Proof.
  destruct (run_from_new cs) as (pq & E & _ & Hpc).
  exists pq. split; [done|]. split; [done|]. split; [|split].
  - intros pq' x err. apply Pop_index.
  - intros d' x. apply heap_Pop_index.
  - intros i d' x. apply heap_Remove_index.
Qed.

Lemma position_consistency_invariant_witness :
  ∃ pq, run [CallPush (entry "a" "x" 3); CallPush (entry "b" "y" 9);
             CallPush (entry "c" "y" 5); CallPop] NewPriorityQueue = Ok pq ∧
    PositionConsistent (data pq) ∧
    (∀ pq' x err, Pop pq = Ok (pq', (Some x, err)) → index x = -1) ∧
    (∀ d' x, heap_Pop (data pq) = Ok (d', x) → index x = -1) ∧
    (∀ i d' x, heap_Remove (data pq) i = Ok (d', x) → index x = -1).
Proof.
  apply (position_consistency_invariant string
           [CallPush (entry "a" "x" 3); CallPush (entry "b" "y" 9);
            CallPush (entry "c" "y" 5); CallPop]).
Defined.

(** ** Delete by ID *)

(** C8, as stated, fails when the ID is shared: with two entries of ID
    ["a"], [DeleteItemById] removes the first one and the drain that
    follows yields the other entry, whose ID is ["a"]. *)
Lemma DeleteItemById_shared_ID_is_drained :
  ∃ pq, pushed [entry "a" "x" 10; entry "a" "y" 9] = Ok pq ∧
    DeleteItemById pq "a" =
      Ok (mkPriorityQueue false [mkQItem "a" "y" "test" 9 0], None) ∧
    drain (mkPriorityQueue false [mkQItem "a" "y" "test" 9 0])
      = Ok [mkQItem "a" "y" "test" 9 (-1)].
Proof. eexists. split; [|split]; vm_compute; reflexivity. Qed.

(** C8 (amended).  On every queue the public interface can produce: if
    some entry has the given ID, [DeleteItemById] succeeds and removes
    exactly one entry, the first one with that ID in store order; the
    length drops by 1; the following drain yields exactly the remaining
    entries, so it yields no entry of that ID provided no other stored
    entry carried it.  If no entry has the given ID it returns the
    not-found error and the queue is unchanged. *)
Theorem DeleteItemById_first_match (V : Type) (cs : list (call V))
    (pq : PriorityQueue V) (id : string) :
  run cs NewPriorityQueue = Ok pq →
  ((∃ e, e ∈ data pq ∧ ID e = id) →
     ∃ pre x post pq' items,
       data pq = pre ++ x :: post ∧
       Forall (λ e, ID e ≠ id) pre ∧ ID x = id ∧
       DeleteItemById pq id = Ok (pq', None) ∧
       Len pq' = Len pq - 1 ∧
       contents (data pq) ≡ₚ content x :: contents (data pq') ∧
       drain pq' = Ok items ∧
       content <$> items ≡ₚ contents (data pq') ∧
       (Forall (λ e, ID e ≠ id) post → Forall (λ e, ID e ≠ id) items)) ∧
  ((∀ e, e ∈ data pq → ID e ≠ id) →
     DeleteItemById pq id = Ok (pq, Some (errNotFound id))).
Proof.
  intros Hrun. apply reachable_Invariant in Hrun as [_ Hpc]. split.
  - intros (e & He & Hid).
    destruct (first_match (λ e, String.eqb (ID e) id) (data pq))
      as [Hnone|(pre & x & post & Hd & Hpre & Hx)].
    { apply Forall_ID_eqb in Hnone.
      rewrite list.Forall_forall in Hnone. by destruct (Hnone e He). }
    apply Forall_ID_eqb in Hpre. apply String.eqb_eq in Hx.
    destruct (DeleteItemById_present pq id pre x post Hpc Hd Hpre Hx)
      as (pq' & E & L & P & _).
    destruct (drain_spec pq') as (items & Ed & Pd & _).
    exists pre, x, post, pq', items. repeat (split; [done|]).
    intros Hpost. apply list.Forall_forall. intros item Hitem.
    assert (contents (data pq') ≡ₚ contents (pre ++ post)) as Prest.
    { apply (Permutation_cons_inv (a := content x)). rewrite <- P, Hd.
      unfold contents. rewrite !fmap_app. simpl.
      symmetry. apply Permutation_middle. }
    assert (content item ∈ contents (pre ++ post)) as Hin.
    { rewrite <- Prest, <- Pd. by apply list_elem_of_fmap_2. }
    apply contents_elem in Hin as (e' & He' & Hc).
    rewrite (content_ID _ _ Hc).
    apply elem_of_app in He' as [He'|He'].
    + rewrite list.Forall_forall in Hpre. by apply Hpre.
    + rewrite list.Forall_forall in Hpost. by apply Hpost.
  - intros Hnone. apply DeleteItemById_absent.
    by apply list.Forall_forall.
Qed.

Lemma DeleteItemById_first_match_witness :
  ∃ pre x post pq' items,
    data (populated 10) = pre ++ x :: post ∧
    Forall (λ e, ID e ≠ "5"%string) pre ∧ ID x = "5"%string ∧
    DeleteItemById (populated 10) "5" = Ok (pq', None) ∧
    Len pq' = Len (populated 10) - 1 ∧
    contents (data (populated 10)) ≡ₚ content x :: contents (data pq') ∧
    drain pq' = Ok items ∧
    content <$> items ≡ₚ contents (data pq') ∧
    (Forall (λ e, ID e ≠ "5"%string) post →
     Forall (λ e, ID e ≠ "5"%string) items).
Proof.
  assert (run (populateCalls 10) NewPriorityQueue = Ok (populated 10)) as Hrun
    by (vm_compute; reflexivity).
  apply (proj1 (DeleteItemById_first_match string _ _ "5" Hrun)).
  exists (mkQItem "5" "12345" "test" 6 2).
  split; [|reflexivity].
  apply list_elem_of_lookup_2 with 2%nat. vm_compute. reflexivity.
Defined.

(** ** Pop on an empty queue *)

(** C9.  On a queue of length 0, [Pop] returns the empty-queue error and
    the queue is unchanged, its length still 0. *)
Theorem Pop_on_empty (V : Type) (pq : PriorityQueue V) :
  Len pq = 0 →
  ∃ r pq', Pop pq = Ok (pq', (r, Some errEmpty)) ∧ pq' = pq ∧ Len pq' = 0.
Proof.
  intros H. exists None, pq. rewrite Pop_empty by done. done.
Qed.

Lemma Pop_on_empty_witness :
  ∃ r pq', Pop (NewPriorityQueue (V := string)) = Ok (pq', (r, Some errEmpty)) ∧
    pq' = NewPriorityQueue ∧ Len pq' = 0.
Proof. apply (Pop_on_empty string NewPriorityQueue). reflexivity. Defined.

(** C10.  On a queue of length 0, the entry [Pop] returns next to its
    error is the nil pointer. *)
Theorem Pop_on_empty_returns_nil (V : Type) (pq : PriorityQueue V) :
  Len pq = 0 →
  ∀ pq' r err, Pop pq = Ok (pq', (r, err)) → r = None ∧ err ≠ None.
Proof.
  intros H pq' r err. rewrite Pop_empty by done. by intros [= _ <- <-].
Qed.

Lemma Pop_on_empty_returns_nil_witness :
  (None : option (QItem string)) = None ∧ Some errEmpty ≠ None.
Proof.
  assert (Len (NewPriorityQueue (V := string)) = 0) as Hlen by reflexivity.
  apply (Pop_on_empty_returns_nil string NewPriorityQueue Hlen
           NewPriorityQueue None (Some errEmpty)).
  reflexivity.
Defined.

(** * Facts for the further properties *)

Section MoreFacts.

Context {V : Type}.

Implicit Types (d h : QItems V) (e x : QItem V) (i j k n : Z)
  (pq : PriorityQueue V).

(** ** [down] below a given position, and [heap.Init] *)

Lemma down_ready_from_leaf lo d i n :
  0 ≤ i → n ≤ 2 * i + 1 → down_ready_from lo d i n → heap_from d lo n.
Proof.
  intros Hi Hn [H1 _] k Hk Hlo. apply H1; [done|done|].
  intros E. apply (parent_children i k) in E; lia.
Qed.

Lemma down_ready_from_done lo d i n :
  0 ≤ i → (∀ k, 0 < k < n → parent k = i → prio d k ≤ prio d i) →
  down_ready_from lo d i n → heap_from d lo n.
Proof.
  intros Hi Hc [H1 _] k Hk Hlo.
  destruct (Z.eq_dec (parent k) i) as [E|E]; [|by apply H1].
  rewrite E. by apply Hc.
Qed.

Lemma down_ready_from_swapped lo d d1 i j n :
  0 ≤ i → lo ≤ i → 0 < j < n → parent j = i →
  (∀ k, 0 < k < n → parent k = i → prio d k ≤ prio d j) →
  prio d i < prio d j → swapped d d1 i j →
  down_ready_from lo d i n → down_ready_from lo d1 j n.
Proof.
  intros Hi Hlo Hj Hpj Hbest Hlt Hs [H1 H2].
  pose proof (parent_lt j ltac:(lia)) as Hpj'. rewrite Hpj in Hpj'.
  split.
  - intros k Hk Hlok Hne.
    pose proof (parent_lt k ltac:(lia)) as Hpk.
    rewrite !(swapped_prio d d1 i j) by done.
    destruct (Z.eqb_spec (parent k) j) as [|_]; [done|].
    destruct (Z.eqb_spec k j) as [->|Hkj].
    { rewrite Hpj, Z.eqb_refl. lia. }
    destruct (Z.eqb_spec k i) as [->|Hki].
    { destruct (Z.eqb_spec (parent i) i); [lia|].
      specialize (H2 j Hj Hpj). lia. }
    destruct (Z.eqb_spec (parent k) i) as [E|E].
    { by apply Hbest. }
    by apply H1.
  - intros k Hk Hpk _ _.
    pose proof (parent_lt k ltac:(lia)) as Hpk'. rewrite Hpk in Hpk'.
    rewrite !(swapped_prio d d1 i j) by done.
    rewrite Hpj, Z.eqb_refl.
    destruct (Z.eqb_spec i j); [lia|].
    destruct (Z.eqb_spec k j); [lia|]. destruct (Z.eqb_spec k i); [lia|].
    specialize (H1 k Hk). rewrite Hpk in H1. apply H1; lia.
Qed.

Lemma down_loop_from lo n budget : ∀ d i,
  0 ≤ i → lo ≤ i → n ≤ QItems_Len d → (Z.to_nat (n - i) < budget)%nat →
  ∃ d' i', down_loop budget d i n = Ok (d', i') ∧ rearranged d d' ∧
    (down_ready_from lo d i n → heap_from d' lo n).
Proof.
  induction budget as [|b IH]; intros d i Hi Hlo Hn Hb; [lia|].
  simpl.
  destruct (Z.geb_spec (2 * i + 1) n) as [Hge|Hlt1]; simpl.
  { exists d, i. split; [done|]. split; [apply rearranged_refl|].
    intros. by apply (down_ready_from_leaf lo d i n); [lia..|]. }
  destruct (Z.ltb_spec (2 * i + 1) 0) as [?|_]; [lia|].
  set (j1 := 2 * i + 1) in *. set (j2 := j1 + 1).
  assert (∃ less21 : bool,
    (if j2 <? n then QItems_Less d j2 j1 else Ok false) = Ok less21 ∧
    less21 = (j2 <? n) && (prio d j2 >? prio d j1)) as (less21 & -> & Hless).
  { destruct (Z.ltb_spec j2 n).
    - rewrite Less_Ok by lia. by eexists.
    - by eexists. }
  simpl. set (j := if less21 then j2 else j1).
  assert (Hj : j1 ≤ j ≤ j2 ∧ j < n).
  { unfold j. rewrite Hless. destruct (Z.ltb_spec j2 n); simpl; [|unfold j2; lia].
    destruct (prio d j2 >? prio d j1); unfold j2; lia. }
  assert (Hpj : parent j = i) by (apply parent_children; unfold j1, j2 in *; lia).
  assert (Hbest : ∀ k, 0 < k < n → parent k = i → prio d k ≤ prio d j).
  { intros k Hk Hpk. apply parent_children in Hpk; [|lia..].
    assert (k = j1 ∨ k = j2) as Hk12 by (unfold j2, j1; lia). clear Hpk.
    unfold j. rewrite Hless.
    destruct (Z.ltb_spec j2 n); simpl.
    - destruct (Z.gtb_spec (prio d j2) (prio d j1));
        destruct Hk12 as [->| ->]; lia.
    - destruct Hk12 as [->| ->]; lia. }
  rewrite Less_Ok by lia. simpl.
  destruct (Z.gtb_spec (prio d j) (prio d i)) as [Hgt|Hle]; simpl.
  - destruct (Swap_swapped d i j) as (d1 & -> & Hs); [lia..|]. simpl.
    assert (Hr1 : rearranged d d1)
      by (apply (swapped_rearranged d d1 i j); [lia|lia|done]).
    destruct (IH d1 j) as (d' & i' & E' & Hr & Hh).
    { lia. } { lia. } { destruct Hr1 as [-> _]. lia. } { lia. }
    exists d', i'. split; [done|]. split; [by eapply rearranged_trans|].
    intros Hd. apply Hh.
    apply (down_ready_from_swapped lo d d1 i j n); try done; lia.
  - exists d, i. split; [done|]. split; [apply rearranged_refl|].
    intros Hd. apply (down_ready_from_done lo d i n); [lia| |done].
    intros k Hk Hpk. specialize (Hbest k Hk Hpk). lia.
Qed.

Lemma heap_Init_loop_spec n (k : nat) : ∀ d,
  n = QItems_Len d → Z.of_nat k ≤ n →
  heap_from d (Z.of_nat k) n →
  ∃ d', heap_Init_loop k d n = Ok d' ∧ rearranged d d' ∧ heap_upto d' n.
Proof.
  induction k as [|k IH]; intros d Hn Hk Hheap; simpl.
  { exists d. split; [done|]. split; [apply rearranged_refl|].
    intros i Hi. apply Hheap; [done|]. pose proof (parent_lt i). lia. }
  unfold down.
  destruct (down_loop_from (Z.of_nat k) n (S (length d)) d (Z.of_nat k))
    as (d1 & i1 & -> & Hr1 & Hh1); [lia|lia|lia|unfold QItems_Len in Hn; lia|].
  simpl.
  assert (L1 : QItems_Len d1 = QItems_Len d) by apply Hr1.
  destruct (IH d1) as (d' & -> & Hr & Hh); [lia|lia| |].
  - apply Hh1. split.
    + intros i Hi Hlo Hne. apply Hheap; [done|lia].
    + intros i Hi Hp Hpos Hlo. pose proof (parent_lt (Z.of_nat k)). lia.
  - exists d'. split; [done|]. split; [by eapply rearranged_trans|done].
Qed.

Lemma heap_Init_spec d :
  ∃ d', heap_Init d = Ok d' ∧ rearranged d d' ∧ heap_upto d' (QItems_Len d').
Proof.
  unfold heap_Init.
  assert (0 ≤ QItems_Len d) as Hn by (unfold QItems_Len; lia).
  destruct (heap_Init_loop_spec (QItems_Len d)
              (Z.to_nat (Z.quot (QItems_Len d) 2)) d)
    as (d' & -> & Hr & Hh); [done|lia| |].
  - intros k Hk Hlo. unfold parent in Hlo. lia.
  - exists d'. split; [done|]. split; [done|].
    destruct Hr as [-> _]. done.
Qed.

End MoreFacts.

(** * Facts about the group update *)

Section UpdateFacts.

Context {V : Type}.

Implicit Types (d h : QItems V) (e x : QItem V) (i j k n : Z)
  (pq : PriorityQueue V).

Lemma contents_insert d (m : nat) x :
  contents (<[m := x]> d) = <[m := content x]> (contents d).
Proof. unfold contents. apply list_fmap_insert. Qed.

Lemma set_group_priority_match g priority x :
  ParentID x = g →
  set_group_priority g priority (content x)
    = content (set_Priority x priority).
Proof.
  intros H. unfold set_group_priority, content. simpl.
  by rewrite (proj2 (String.eqb_eq _ _) H).
Qed.

Lemma set_group_priority_other g priority x :
  ParentID x ≠ g → set_group_priority g priority (content x) = content x.
Proof.
  intros H. unfold set_group_priority, content.
  by destruct (String.eqb_spec (ParentID x) g).
Qed.

Lemma set_group_priority_again g p q x :
  ParentID x = g →
  set_group_priority g p (content (set_Priority x q))
    = set_group_priority g p (content x).
Proof.
  intros H. unfold set_group_priority, content. simpl.
  by rewrite (proj2 (String.eqb_eq _ _) H).
Qed.

(** Whatever the walk does, it only rewrites priorities inside the group. *)
Lemma UpdatePriorityByParentId_loop_others g priority positions :
  ∀ d itemsUpdated,
  Invariant d → Forall (λ i, 0 ≤ i < QItems_Len d) positions →
  ∃ d' n, UpdatePriorityByParentId_loop positions g priority d itemsUpdated
            = Ok (d', n) ∧
    QItems_Len d' = QItems_Len d ∧ Invariant d' ∧
    itemsUpdated ≤ n ≤ itemsUpdated + Z.of_nat (length positions) ∧
    set_group_priority g 0 <$> contents d'
      ≡ₚ set_group_priority g 0 <$> contents d.
Proof.
  induction positions as [|i rest IH]; intros d c Hinv Hpos; simpl.
  { exists d, c. split; [done|]. split; [done|]. split; [done|].
    split; [lia|done]. }
  inversion_clear Hpos as [|? ? Hi Hrest].
  destruct (proj2 (slot_is_Some d i) Hi) as [element He].
  rewrite (at_Ok _ _ _ He). simpl.
  destruct (String.eqb_spec (ParentID element) g) as [Hg|Hg].
  - destruct Hinv as [Hheap Hpc]. rewrite (Hpc i element He).
    destruct (update_spec d i priority Hpc Hi)
      as (d1 & x & Hx & -> & Hr & Hpc1 & Hh).
    rewrite He in Hx. injection Hx as <-.
    simpl. assert (L1 : QItems_Len d1 = QItems_Len d).
    { destruct Hr as [-> _]. apply Len_insert. }
    destruct (IH d1 (c + 1)) as (d' & n & -> & L & Hinv' & Hn & P).
    { split; auto. } { by rewrite L1. }
    exists d', n. split; [done|]. split; [lia|]. split; [done|].
    split; [lia|]. rewrite P.
    destruct Hr as (_ & -> & _). rewrite contents_insert, list_fmap_insert.
    rewrite set_group_priority_again by done.
    rewrite list_insert_id; [done|].
    rewrite list_lookup_fmap, contents_lookup.
    rewrite Z2Nat.id by lia. by rewrite He.
  - destruct (IH d c Hinv Hrest) as (d' & n & -> & L & Hinv' & Hn & P).
    exists d', n. split; [done|]. split; [lia|]. split; [done|].
    split; [lia|done].
Qed.

(** ** Raising a group *)

Lemma prio_bound d priority k :
  (∀ e, e ∈ d → Priority e ≤ priority) → 0 ≤ k < QItems_Len d →
  prio d k ≤ priority.
Proof.
  intros H Hk. destruct (proj2 (slot_is_Some d k) Hk) as [e He].
  rewrite (prio_slot _ _ _ He). apply H.
  unfold slot in He. destruct (k <? 0); [done|].
  by apply list_elem_of_lookup_2 in He.
Qed.

(** When no stored priority exceeds the new one, the updated entry cannot
    sink: [heap.Fix] reduces to [up]. *)
Lemma update_raise d i priority x :
  PositionConsistent d → slot d i = Some x →
  (∀ e, e ∈ d → Priority e ≤ priority) →
  update d i priority = up (<[Z.to_nat i := set_Priority x priority]> d) i.
Proof.
  intros Hpc Hx Hmax. apply slot_Some_range in Hx as Hi.
  unfold update. rewrite (at_Ok _ _ _ Hx). simpl.
  rewrite (store_Ok _ _ _ _ Hx). simpl.
  set (d0 := <[Z.to_nat i := set_Priority x priority]> d).
  assert (L0 : QItems_Len d0 = QItems_Len d) by apply Len_insert.
  assert (S0 : ∀ k, slot d0 k =
                 if k =? i then Some (set_Priority x priority) else slot d k)
    by (intros; by apply slot_insert).
  rewrite (Hpc i x Hx). unfold heap_Fix, down_or_up, down.
  destruct (down_loop_spec (QItems_Len d0) (S (length d0)) d0 i)
    as (d1 & i1 & -> & _ & _ & Hsame & _ & _ & Hnop);
    [lia|lia|unfold QItems_Len; lia|].
  assert (i1 = i) as ->.
  { apply Hnop. intros k Hk Hpk. pose proof (parent_lt k ltac:(lia)).
    assert (prio d0 i = priority) as ->.
    { unfold prio. by rewrite S0, Z.eqb_refl. }
    assert (prio d0 k = prio d k) as ->.
    { unfold prio. rewrite S0. destruct (Z.eqb_spec k i); [lia|done]. }
    apply prio_bound; [done|lia]. }
  rewrite (Hsame eq_refl). simpl.
  destruct (Z.gtb_spec i i); [lia|]. done.
Qed.

Lemma elem_of_insert_inv d (m : nat) x e :
  e ∈ <[m := x]> d → e = x ∨ e ∈ d.
Proof.
  intros He. apply list_elem_of_lookup in He as [a Ha].
  destruct (decide (m = a)) as [->|Hne].
  - destruct (decide (a < length d)%nat).
    + rewrite list_lookup_insert_eq in Ha by done. left. by injection Ha.
    + rewrite list_insert_ge in Ha by lia. right.
      by apply list_elem_of_lookup_2 in Ha.
  - rewrite list_lookup_insert_ne in Ha by done. right.
    by apply list_elem_of_lookup_2 in Ha.
Qed.

Lemma bound_through_contents d d' priority :
  contents d' ≡ₚ contents d →
  (∀ e, e ∈ d → Priority e ≤ priority) →
  ∀ e, e ∈ d' → Priority e ≤ priority.
Proof.
  intros P H e He.
  assert (content e ∈ contents d) as Hin.
  { rewrite <- P. by apply list_elem_of_fmap_2. }
  apply contents_elem in Hin as (e0 & He0 & Hc).
  rewrite (content_Priority _ _ Hc). by apply H.
Qed.

Lemma UpdatePriorityByParentId_loop_raise g priority (m : nat) :
  ∀ d (a : nat) itemsUpdated,
  Invariant d → length d = (a + m)%nat →
  (∀ e, e ∈ d → Priority e ≤ priority) →
  ∃ d', UpdatePriorityByParentId_loop (seqZ (Z.of_nat a) (Z.of_nat m))
          g priority d itemsUpdated
        = Ok (d', itemsUpdated + group_size g (drop a d)) ∧
    Invariant d' ∧
    contents d' ≡ₚ
      contents (take a d) ++ (set_group_priority g priority <$> contents (drop a d)).
Proof.
  induction m as [|m IH]; intros d a c Hinv Hlen Hmax.
  { simpl. exists d. rewrite drop_ge, take_ge by lia.
    unfold group_size. simpl. rewrite Z.add_0_r, app_nil_r. done. }
  rewrite seqZ_cons by lia.
  replace (Z.pred (Z.of_nat (S m))) with (Z.of_nat m) by lia.
  replace (Z.succ (Z.of_nat a)) with (Z.of_nat (S a)) by lia.
  simpl UpdatePriorityByParentId_loop.
  assert (Hi : 0 ≤ Z.of_nat a < QItems_Len d) by (unfold QItems_Len; lia).
  destruct (proj2 (slot_is_Some d (Z.of_nat a)) Hi) as [x Hx].
  assert (Hxa : d !! a = Some x) by (by rewrite <- slot_of_nat).
  rewrite (at_Ok _ _ _ Hx). simpl.
  rewrite (drop_S _ _ _ Hxa).
  pose proof (take_S_r _ _ _ Hxa) as Htk.
  destruct (String.eqb_spec (ParentID x) g) as [Hg|Hg].
  - destruct Hinv as [Hheap Hpc]. rewrite (Hpc _ x Hx).
    destruct (update_spec d (Z.of_nat a) priority Hpc Hi)
      as (d1 & x' & Hx' & E & Hr & Hpc1 & Hh).
    rewrite Hx in Hx'. injection Hx' as <-.
    rewrite E. simpl.
    rewrite (update_raise d _ priority x Hpc Hx Hmax) in E.
    rewrite Nat2Z.id in *.
    set (d0 := <[a := set_Priority x priority]> d) in *.
    assert (L0 : QItems_Len d0 = QItems_Len d) by apply Len_insert.
    destruct (up_loop_spec (S (length d0)) d0 (Z.of_nat a))
      as (d1' & E' & _ & Hframe & _); [lia|unfold QItems_Len in *; lia|].
    unfold up in E. rewrite E' in E. injection E as ->.
    assert (L1 : length d1 = length d).
    { destruct Hr as [L _]. unfold QItems_Len in *. lia. }
    assert (Hdrop : drop (S a) d1 = drop (S a) d).
    { apply list_eq. intros b. rewrite !lookup_drop.
      rewrite <- !slot_of_nat. rewrite Hframe by lia.
      rewrite !slot_of_nat. unfold d0. apply list_lookup_insert_ne. lia. }
    assert (Htake : contents (take (S a) d1)
                    ≡ₚ contents (take a d) ++ [content (set_Priority x priority)]).
    { apply (Permutation_app_inv_r (contents (drop (S a) d))).
      rewrite <- Hdrop at 1. unfold contents at 1 2.
      rewrite <- fmap_app, take_drop. fold (contents d1).
      destruct Hr as (_ & -> & _). unfold d0.
      rewrite insert_take_drop by lia.
      unfold contents. rewrite !fmap_app. simpl.
      by rewrite <- app_assoc. }
    destruct (IH d1 (S a) (c + 1)) as (d' & -> & Hinv' & P).
    { split; auto. } { lia. }
    { apply (bound_through_contents d0); [apply Hr|].
      intros e He. apply elem_of_insert_inv in He as [->|He]; [simpl; lia|auto]. }
    exists d'. split.
    { do 2 f_equal. unfold group_size. rewrite Hdrop.
      rewrite filter_cons_True by done. simpl length. lia. }
    split; [done|]. rewrite P, Hdrop, Htake.
    rewrite (proj2 (String.eqb_eq _ _) Hg), <- app_assoc. done.
  - destruct (IH d (S a) c) as (d' & -> & Hinv' & P); [done|lia|done|].
    exists d'. split.
    { do 2 f_equal. unfold group_size. by rewrite filter_cons_False. }
    split; [done|]. rewrite P.
    destruct (String.eqb_spec (ParentID x) g); [done|].
    rewrite Htk. unfold contents. rewrite fmap_app, <- app_assoc.
    rewrite !fmap_cons, set_group_priority_other by done. done.
Qed.

End UpdateFacts.

(** * Facts about the group delete, [Clear], and single calls *)

Section CallFacts.

Context {V : Type}.

Implicit Types (d h : QItems V) (e x : QItem V) (i j k n : Z)
  (pq : PriorityQueue V).

(** The second loop of [DeleteItemsByParentId] on the positions
    [s, s+1, ..., s+cnt-1]: every successful [delete] shortens the store by
    one while the position grows by one, so the loop succeeds
    [min cnt (ceil ((len - s) / 2))] times. *)
Lemma DeleteItemsByParentId_loop_count (cnt : nat) : ∀ s d itemsDeleted,
  0 ≤ s →
  let reach := Z.max 0 ((QItems_Len d - s + 1) / 2) in
  let r := Z.min (Z.of_nat cnt) reach in
  ∃ d', DeleteItemsByParentId_loop (seqZ s (Z.of_nat cnt)) d itemsDeleted
          = Ok (d', (itemsDeleted + r,
                     if Z.of_nat cnt <=? reach then None
                     else Some errIndexOutOfRange)) ∧
    QItems_Len d' = QItems_Len d - r ∧
    (Invariant d → Invariant d').
Proof.
  induction cnt as [|cnt IH]; intros s d c Hs reach r.
  { simpl. exists d. subst r reach. change (Z.of_nat 0) with 0.
    destruct (Z.leb_spec 0 (Z.max 0 ((QItems_Len d - s + 1) / 2))); [|lia].
    replace (Z.min 0 _) with 0 by lia.
    rewrite Z.add_0_r, Z.sub_0_r. done. }
  rewrite seqZ_cons by lia.
  replace (Z.pred (Z.of_nat (S cnt))) with (Z.of_nat cnt) by lia.
  simpl DeleteItemsByParentId_loop.
  assert (0 ≤ QItems_Len d) as HL by (unfold QItems_Len; lia).
  destruct (delete_spec d s Hs) as
    [(Hlt & d1 & y & _ & -> & L & _ & C & H)|(Hge & ->)]; simpl.
  - destruct (IH (Z.succ s) d1 (c + 1)) as (d' & -> & L' & Hinv); [lia|].
    exists d'. rewrite L in *. subst r reach.
    replace (QItems_Len d - 1 - Z.succ s + 1) with (QItems_Len d - s + 1 - 2) in * by lia.
    assert (HM : Z.max 0 ((QItems_Len d - s + 1) / 2)
                 = Z.max 0 ((QItems_Len d - s + 1 - 2) / 2) + 1) by lia.
    rewrite HM. set (M := Z.max 0 ((QItems_Len d - s + 1 - 2) / 2)) in *.
    assert (HS : Z.of_nat (S cnt) = Z.of_nat cnt + 1) by lia.
    rewrite HS.
    split; [|split].
    + destruct (Z.leb_spec (Z.of_nat cnt) M);
        destruct (Z.leb_spec (Z.of_nat cnt + 1) (M + 1)); try lia;
        do 3 f_equal; lia.
    + lia.
    + intros [? ?]. apply Hinv. split; [rewrite L|]; auto.
  - exists d. subst r reach.
    replace (Z.max 0 ((QItems_Len d - s + 1) / 2)) with 0 by lia.
    destruct (Z.leb_spec (Z.of_nat (S cnt)) 0); [lia|].
    replace (Z.min (Z.of_nat (S cnt)) 0) with 0 by lia.
    rewrite Z.add_0_r, Z.sub_0_r. done.
Qed.

(** ** Nothing changes the [available] flag *)

Lemma exec_available (c : call V) pq pq' :
  exec c pq = Ok pq' → available pq' = available pq.
Proof.
  destruct c as [x| | | | |parentID priority|id|parentID]; simpl.
  - unfold Push. destruct (heap_Push _ _); simpl; [|done..]. by intros [= <-].
  - unfold Pop. destruct (_ >? _).
    + destruct (heap_Pop _) as [[? ?]| |]; simpl; [|done..]. by intros [= <-].
    + simpl. by intros [= <-].
  - by intros [= <-].
  - rewrite Clear_spec. by intros [= <-].
  - rewrite Destroy_spec. by intros [= <-].
  - unfold UpdatePriorityByParentId.
    destruct (UpdatePriorityByParentId_loop _ _ _ _ _) as [[? ?]| |];
      simpl; [|done..].
    by intros [= <-].
  - unfold DeleteItemById. destruct (locateItemByID pq id) as [ix [err|]]; simpl.
    + by intros [= <-].
    + destruct (delete _ _) as [[? [?|]]| |]; simpl; [| |done..];
        by intros [= <-].
  - unfold DeleteItemsByParentId.
    destruct (DeleteItemsByParentId_loop _ _ _) as [[? [? ?]]| |];
      simpl; [|done..].
    by intros [= <-].
Qed.

Lemma run_available (cs : list (call V)) : ∀ pq pq',
  run cs pq = Ok pq' → available pq' = available pq.
Proof.
  induction cs as [|c cs IH]; intros pq pq'; simpl.
  - by intros [= <-].
  - destruct (exec c pq) as [pq1| |] eqn:E; simpl; [|done..].
    intros H. rewrite (IH _ _ H). by apply (exec_available c).
Qed.

(** ** [Swap] twice *)

Lemma set_index_same e : set_index e (index e) = e.
Proof. by destruct e. Qed.

Lemma Swap_Swap d i j a b :
  slot d i = Some a → slot d j = Some b → index a = i → index b = j →
  ∃ d1, QItems_Swap d i j = Ok d1 ∧ QItems_Swap d1 i j = Ok d.
Proof.
  intros Ha Hb Hia Hib.
  apply slot_Some_range in Ha as Hi. apply slot_Some_range in Hb as Hj.
  destruct (Swap_Ok d i j Hi Hj) as (d1 & E1 & L1 & S1).
  destruct (Swap_Ok d1 i j) as (d2 & E2 & L2 & S2); [lia..|].
  exists d1. split; [done|]. rewrite E2. f_equal.
  assert (H1i : slot d1 i = Some (set_index b i)).
  { rewrite S1. destruct (Z.eqb_spec i j) as [->|_].
    - rewrite Ha. rewrite Hb in Ha. by injection Ha as ->.
    - by rewrite Z.eqb_refl, Hb. }
  assert (H1j : slot d1 j = Some (set_index a j))
    by (by rewrite S1, Z.eqb_refl, Ha).
  apply slot_ext. intros k. rewrite S2, H1i, H1j.
  destruct (Z.eqb_spec k j) as [->|Hkj].
  - rewrite Hb. simpl. f_equal. rewrite <- (set_index_same b) at 2.
    by rewrite Hib.
  - destruct (Z.eqb_spec k i) as [->|Hki].
    + rewrite Ha. simpl. f_equal. rewrite <- (set_index_same a) at 2.
      by rewrite Hia.
    + rewrite S1. destruct (Z.eqb_spec k j); [lia|].
      destruct (Z.eqb_spec k i); [lia|done].
Qed.

(** ** [delete] below the store *)

Lemma delete_negative d index : index < 0 → delete d index = Panic.
Proof.
  intros Hneg. unfold delete.
  assert (0 ≤ QItems_Len d) as HL by (unfold QItems_Len; lia).
  destruct (Z.ltb_spec index (QItems_Len d)); [|lia].
  assert (at_ d index = Panic) as Hat.
  { unfold at_. rewrite (proj2 (slot_None d index)); [done|lia]. }
  unfold heap_Remove.
  destruct (Z.eqb_spec (QItems_Len d - 1) index) as [E|E]; simpl.
  - unfold QItems_Pop. rewrite E, Hat. done.
  - unfold QItems_Swap.
    destruct (at_cases d (QItems_Len d - 1)) as [[y ->]| ->]; simpl; [|done].
    rewrite Hat. done.
Qed.

(** ** A dominating entry is popped next *)

Lemma Push_then_Pop pq x :
  Invariant (data pq) →
  ∃ pq1 pq2 top,
    Push pq x = Ok pq1 ∧ Pop pq1 = Ok (pq2, (Some top, None)) ∧
    Len pq2 = Len pq ∧ index top = -1 ∧
    Priority x ≤ Priority top ∧
    ((∀ e, e ∈ data pq → Priority e ≤ Priority x) →
       Priority top = Priority x) ∧
    ((∀ e, e ∈ data pq → Priority e < Priority x) →
       content top = content x ∧
       contents (data pq2) ≡ₚ contents (data pq)).
Proof.
  intros Hinv.
  destruct (Push_spec pq x) as (pq1 & E1 & L1 & P1 & Hinv1).
  specialize (Hinv1 Hinv).
  assert (0 ≤ Len pq) as HL by (unfold Len, QItems_Len; lia).
  destruct (Pop_spec pq1) as (pq2 & root & Hroot & E2 & L2 & P2 & _); [lia|].
  exists pq1, pq2, (set_index root (-1)).
  split; [done|]. split; [done|]. split; [lia|]. split; [done|].
  assert (Hmax : ∀ e, e ∈ data pq1 → Priority e ≤ Priority root)
    by (apply root_is_max; [apply Hinv1|done]).
  assert (Hx : Priority x ≤ Priority root).
  { assert (content x ∈ contents (data pq1)) as Hin
      by (rewrite P1; apply list_elem_of_here).
    apply contents_elem in Hin as (e & He & Hc).
    rewrite (content_Priority _ _ Hc). by apply Hmax. }
  assert (Hroot' : content root = content x ∨
                   ∃ e, e ∈ data pq ∧ content root = content e).
  { assert (content root ∈ content x :: contents (data pq)) as Hin.
    { rewrite <- P1, P2. apply list_elem_of_here. }
    apply elem_of_cons in Hin as [?|Hin]; [by left|right].
    by apply contents_elem in Hin as (e & ? & ?); eauto. }
  split; [done|]. split.
  - intros Hle. destruct Hroot' as [Hc|(e & He & Hc)].
    + by apply content_Priority in Hc.
    + apply content_Priority in Hc. simpl. specialize (Hle e He). lia.
  - intros Hlt. destruct Hroot' as [Hc|(e & He & Hc)].
    + split; [done|].
      apply (Permutation_cons_inv (a := content x)).
      rewrite <- P1, P2. by rewrite Hc.
    + apply content_Priority in Hc. specialize (Hlt e He). lia.
Qed.

(** ** [locateItemByID] on a position-consistent store *)

Lemma locateItemByID_first pq id (pre : QItems V) x post :
  PositionConsistent (data pq) →
  data pq = pre ++ x :: post → Forall (λ e, ID e ≠ id) pre → ID x = id →
  locateItemByID pq id = (QItems_Len pre, None).
Proof.
  intros Hpc Hd Hpre Hx. unfold locateItemByID.
  rewrite Hd, (locateItemByID_loop_first pre x post);
    [|by apply Forall_ID_eqb|by apply String.eqb_eq].
  assert (Hslot : slot (data pq) (QItems_Len pre) = Some x)
    by (rewrite Hd; apply slot_middle).
  rewrite (Hpc _ _ Hslot).
  destruct (Z.eqb_spec (QItems_Len pre) (-1)); [|done].
  unfold QItems_Len in *. lia.
Qed.

Lemma locateItemByID_none pq id :
  Forall (λ e, ID e ≠ id) (data pq) →
  locateItemByID pq id = (-1, Some (errNotFound id)).
Proof.
  intros H. unfold locateItemByID.
  rewrite locateItemByID_loop_none; [done|]. by apply Forall_ID_eqb.
Qed.

End CallFacts.

(** * Further properties of the code *)

(** ** [Push] *)

(** X1.  [Push] has no failure mode: on every queue value, heap-ordered
    or not, it returns, the length grows by one, the stored entries are
    the old ones plus the pushed one, and position consistency and the
    max-heap property are kept when they held before. *)
Theorem Push_always_adds (V : Type) (pq : PriorityQueue V) (x : QItem V) :
  ∃ pq', Push pq x = Ok pq' ∧
    Len pq' = Len pq + 1 ∧
    contents (data pq') ≡ₚ content x :: contents (data pq) ∧
    (PositionConsistent (data pq) → PositionConsistent (data pq')) ∧
    (MaxHeap (data pq) → MaxHeap (data pq')).
Proof.
  unfold Push, Len.
  destruct (heap_Push_spec (data pq) x) as (d' & -> & L & P & C & H).
  exists (set_data pq d'). simpl. repeat (split; [done|]).
  intros Hheap. apply MaxHeap_heap_upto, H. by apply MaxHeap_heap_upto.
Qed.

Lemma Push_always_adds_witness :
  ∃ pq', Push (populated 10) (entry "new" "g" 7) = Ok pq' ∧
    Len pq' = Len (populated 10) + 1 ∧
    contents (data pq')
      ≡ₚ content (entry "new" "g" 7) :: contents (data (populated 10)) ∧
    (PositionConsistent (data (populated 10)) → PositionConsistent (data pq')) ∧
    (MaxHeap (data (populated 10)) → MaxHeap (data pq')).
Proof. apply (Push_always_adds string (populated 10) (entry "new" "g" 7)). Defined.

(** X2.  Push then Pop.  On every queue the public interface can produce,
    [Push] followed by [Pop] succeeds and restores the length, and the
    popped entry has at least the pushed priority.  If no stored priority
    exceeds the pushed one, the popped priority is the pushed one; if the
    pushed priority is strictly the largest, the popped entry is the
    pushed entry and the stored entries are the same as before. *)
Theorem Push_then_Pop_dominating (V : Type) (cs : list (call V))
    (pq : PriorityQueue V) (x : QItem V) :
  run cs NewPriorityQueue = Ok pq →
  ∃ pq1 pq2 top,
    Push pq x = Ok pq1 ∧ Pop pq1 = Ok (pq2, (Some top, None)) ∧
    Len pq2 = Len pq ∧ index top = -1 ∧
    Priority x ≤ Priority top ∧
    ((∀ e, e ∈ data pq → Priority e ≤ Priority x) →
       Priority top = Priority x) ∧
    ((∀ e, e ∈ data pq → Priority e < Priority x) →
       content top = content x ∧
       contents (data pq2) ≡ₚ contents (data pq)).
Proof.
  intros Hrun. apply Push_then_Pop. by apply (reachable_Invariant cs).
Qed.

Lemma Push_then_Pop_dominating_witness :
  ∃ pq1 pq2 top,
    Push (populated 10) (mkQItem "1234" "" "test" 500 0) = Ok pq1 ∧
    Pop pq1 = Ok (pq2, (Some top, None)) ∧
    Len pq2 = Len (populated 10) ∧ index top = -1 ∧
    500 ≤ Priority top ∧
    ((∀ e, e ∈ data (populated 10) → Priority e ≤ 500) → Priority top = 500) ∧
    ((∀ e, e ∈ data (populated 10) → Priority e < 500) →
       content top = content (mkQItem "1234" "" "test" 500 0) ∧
       contents (data pq2) ≡ₚ contents (data (populated 10))).
Proof.
  assert (run (populateCalls 10) NewPriorityQueue = Ok (populated 10)) as Hrun
    by (vm_compute; reflexivity).
  apply (Push_then_Pop_dominating string _ _
           (mkQItem "1234" "" "test" 500 0) Hrun).
Defined.

(** ** [Clear] and [Destroy] *)

(** X3.  [Clear] and [Destroy] never fail: on every queue value they
    return the queue with an empty store (so clearing an empty queue
    changes nothing), and on a queue the public interface can produce
    the result is exactly the fresh queue of [NewPriorityQueue]. *)
Theorem Clear_and_Destroy_reset (V : Type) (pq : PriorityQueue V) :
  Clear pq = Ok (mkPriorityQueue (available pq) []) ∧
  Destroy pq = Ok (mkPriorityQueue (available pq) []) ∧
  (data pq = [] → Clear pq = Ok pq) ∧
  (∀ cs : list (call V), run cs NewPriorityQueue = Ok pq →
     Clear pq = Ok NewPriorityQueue ∧ Destroy pq = Ok NewPriorityQueue).
Proof.
  rewrite Clear_spec, Destroy_spec. unfold set_data.
  split; [done|]. split; [done|]. split.
  - intros H. destruct pq as [a d]. simpl in *. by subst.
  - intros cs Hrun. apply run_available in Hrun. rewrite Hrun. done.
Qed.

Lemma Clear_and_Destroy_reset_witness :
  Clear (populated 10) = Ok NewPriorityQueue ∧
  Destroy (populated 10) = Ok NewPriorityQueue.
Proof.
  assert (run (populateCalls 10) NewPriorityQueue = Ok (populated 10)) as Hrun
    by (vm_compute; reflexivity).
  apply (proj2 (proj2 (proj2 (Clear_and_Destroy_reset string (populated 10))))
           _ Hrun).
Defined.

(** ** Draining *)

(** X4.  Draining a queue the public interface can produce, by popping
    while [Len() > 0], ends after [Len()] pops; it yields every stored
    entry exactly once, in non-increasing priority order, each with its
    [index] reset to -1. *)
Theorem drain_is_sorted_permutation (V : Type) (cs : list (call V))
    (pq : PriorityQueue V) :
  run cs NewPriorityQueue = Ok pq →
  ∃ items, drain pq = Ok items ∧
    Z.of_nat (length items) = Len pq ∧
    content <$> items ≡ₚ contents (data pq) ∧
    Forall (λ x, index x = -1) items ∧
    StronglySorted (λ a b, Priority b ≤ Priority a) items.
Proof.
  intros Hrun. apply reachable_Invariant in Hrun as Hinv.
  destruct (drain_spec pq) as (items & E & P & Hidx & Hs).
  exists items. split; [done|]. split; [|split; [done|split; [done|auto]]].
  apply Permutation_length in P. unfold contents in P.
  rewrite !length_fmap in P. unfold Len, QItems_Len. lia.
Qed.

Lemma drain_is_sorted_permutation_witness :
  ∃ items, drain (populated 10) = Ok items ∧
    Z.of_nat (length items) = Len (populated 10) ∧
    content <$> items ≡ₚ contents (data (populated 10)) ∧
    Forall (λ x, index x = -1) items ∧
    StronglySorted (λ a b, Priority b ≤ Priority a) items.
Proof.
  assert (run (populateCalls 10) NewPriorityQueue = Ok (populated 10)) as Hrun
    by (vm_compute; reflexivity).
  apply (drain_is_sorted_permutation string _ _ Hrun).
Defined.

(** ** [locateItemByID] *)

(** X5.  On every queue the public interface can produce,
    [locateItemByID] returns the position of the first entry, in store
    order, whose ID is the given one, and no error; when no entry has that
    ID it returns -1 and the not-found error. *)
Theorem locateItemByID_position (V : Type) (cs : list (call V))
    (pq : PriorityQueue V) (id : string) :
  run cs NewPriorityQueue = Ok pq →
  (∀ pre x post,
     data pq = pre ++ x :: post → Forall (λ e, ID e ≠ id) pre → ID x = id →
     locateItemByID pq id = (QItems_Len pre, None) ∧
     slot (data pq) (QItems_Len pre) = Some x) ∧
  (Forall (λ e, ID e ≠ id) (data pq) →
     locateItemByID pq id = (-1, Some (errNotFound id))).
Proof.
  intros Hrun. apply reachable_Invariant in Hrun as [_ Hpc]. split.
  - intros pre x post Hd Hpre Hx. split.
    + by apply (locateItemByID_first pq id pre x post).
    + rewrite Hd. apply slot_middle.
  - apply locateItemByID_none.
Qed.

Lemma locateItemByID_position_witness :
  locateItemByID (populated 3) "0" = (1, None) ∧
  locateItemByID (populated 3) "7" = (-1, Some (errNotFound "7")).
Proof.
  assert (run (populateCalls 3) NewPriorityQueue = Ok (populated 3)) as Hrun
    by (vm_compute; reflexivity).
  split.
  - apply (proj1 (locateItemByID_position string _ _ "0" Hrun)
             [mkQItem "2" "12345" "test" 3 0]
             (mkQItem "0" "12345" "test" 1 1)
             [mkQItem "1" "12345" "test" 2 2]).
    + vm_compute. reflexivity.
    + repeat constructor. discriminate.
    + reflexivity.
  - apply (proj2 (locateItemByID_position string _ _ "7" Hrun)).
    vm_compute. repeat constructor; discriminate.
Defined.

(** ** [UpdatePriorityByParentId] *)

(** X6.  When no stored entry has the given ParentID,
    [UpdatePriorityByParentId] returns 0 and the queue is exactly as it
    was; this holds for every queue value. *)
Theorem UpdatePriorityByParentId_absent_group (V : Type)
    (pq : PriorityQueue V) (parentID : string) (priority : Z) :
  Forall (λ e, ParentID e ≠ parentID) (data pq) →
  UpdatePriorityByParentId pq parentID priority = Ok (pq, 0).
Proof. apply UpdatePriorityByParentId_no_match. Qed.

Lemma UpdatePriorityByParentId_absent_group_witness :
  UpdatePriorityByParentId (populated 3) "other" 500 = Ok (populated 3, 0).
Proof.
  apply (UpdatePriorityByParentId_absent_group string (populated 3) "other" 500).
  vm_compute. repeat constructor; discriminate.
Defined.

(** X7.  On every queue the public interface can produce,
    [UpdatePriorityByParentId] returns a count between 0 and [Len()],
    keeps the length, and changes nothing but priorities inside the
    group: with the priorities of the group's entries blanked out, the
    stored entries before and after are the same.  No entry is added,
    dropped or moved to another group, and entries of other groups keep
    their priority. *)
Theorem UpdatePriorityByParentId_touches_group_only (V : Type)
    (cs : list (call V)) (pq : PriorityQueue V) (parentID : string)
    (priority : Z) :
  run cs NewPriorityQueue = Ok pq →
  ∃ pq' n, UpdatePriorityByParentId pq parentID priority = Ok (pq', n) ∧
    0 ≤ n ≤ Len pq ∧ Len pq' = Len pq ∧
    set_group_priority parentID 0 <$> contents (data pq')
      ≡ₚ set_group_priority parentID 0 <$> contents (data pq).
Proof.
  intros Hrun. apply reachable_Invariant in Hrun as Hinv.
  unfold UpdatePriorityByParentId, Len.
  destruct (UpdatePriorityByParentId_loop_others parentID priority
              (seqZ 0 (QItems_Len (data pq))) (data pq) 0 Hinv)
    as (d' & n & -> & L & _ & Hn & P); [apply seqZ_range|].
  exists (set_data pq d'), n. simpl. split; [done|].
  rewrite length_seqZ in Hn. unfold QItems_Len in *.
  split; [lia|]. split; [done|done].
Qed.

Lemma UpdatePriorityByParentId_touches_group_only_witness :
  ∃ pq' n, UpdatePriorityByParentId (populated 10) "12345" 0 = Ok (pq', n) ∧
    0 ≤ n ≤ Len (populated 10) ∧ Len pq' = Len (populated 10) ∧
    set_group_priority "12345" 0 <$> contents (data pq')
      ≡ₚ set_group_priority "12345" 0 <$> contents (data (populated 10)).
Proof.
  assert (run (populateCalls 10) NewPriorityQueue = Ok (populated 10)) as Hrun
    by (vm_compute; reflexivity).
  apply (UpdatePriorityByParentId_touches_group_only string _ _ "12345" 0 Hrun).
Defined.

(** X8.  Raising a group.  On every queue the public interface can
    produce, when the new priority is at least every stored priority,
    [UpdatePriorityByParentId] visits every entry of the group exactly
    once: it returns the number of stored entries of the group, every
    entry of the group ends with the new priority, and all other entries
    are unchanged. *)
Theorem UpdatePriorityByParentId_raise (V : Type) (cs : list (call V))
    (pq : PriorityQueue V) (parentID : string) (priority : Z) :
  run cs NewPriorityQueue = Ok pq →
  (∀ e, e ∈ data pq → Priority e ≤ priority) →
  ∃ pq', UpdatePriorityByParentId pq parentID priority
           = Ok (pq', group_size parentID (data pq)) ∧
    contents (data pq')
      ≡ₚ set_group_priority parentID priority <$> contents (data pq) ∧
    (∀ e, e ∈ data pq' → ParentID e = parentID → Priority e = priority).
Proof.
  intros Hrun Hmax. apply reachable_Invariant in Hrun as Hinv.
  unfold UpdatePriorityByParentId.
  destruct (UpdatePriorityByParentId_loop_raise parentID priority
              (length (data pq)) (data pq) 0%nat 0 Hinv)
    as (d' & E & _ & P); [done|done|].
  unfold QItems_Len. change (Z.of_nat 0) with 0 in E.
  rewrite drop_0, Z.add_0_l in E. rewrite E. simpl.
  rewrite take_0, drop_0 in P. simpl in P.
  exists (set_data pq d'). simpl. split; [done|]. split; [done|].
  intros e He Hg.
  assert (content e ∈ set_group_priority parentID priority <$> contents (data pq))
    as Hin by (rewrite <- P; by apply list_elem_of_fmap_2).
  apply list_elem_of_fmap in Hin as ([[[id g] v] p] & Hc & _).
  unfold set_group_priority, content in Hc.
  destruct (String.eqb_spec g parentID) as [->|Hne].
  - by injection Hc as _ _ _ ->.
  - injection Hc as _ Hg' _ _. congruence.
Qed.

Lemma UpdatePriorityByParentId_raise_witness :
  ∃ pq', UpdatePriorityByParentId (populated 10) "12345" 500
           = Ok (pq', group_size "12345" (data (populated 10))) ∧
    contents (data pq')
      ≡ₚ set_group_priority "12345" 500 <$> contents (data (populated 10)) ∧
    (∀ e, e ∈ data pq' → ParentID e = "12345"%string → Priority e = 500).
Proof.
  assert (run (populateCalls 10) NewPriorityQueue = Ok (populated 10)) as Hrun
    by (vm_compute; reflexivity).
  apply (UpdatePriorityByParentId_raise string _ _ "12345" 500 Hrun).
  apply list.Forall_forall. vm_compute. repeat constructor; discriminate.
Defined.

(** ** [DeleteItemsByParentId] *)

(** X9.  How many entries [DeleteItemsByParentId] removes.  On every
    queue value with [n] entries of which [k] have the given ParentID, the
    call returns and removes [min k ((n+1)/2)] entries: when
    [k <= (n+1)/2] it returns the count [k] and no error, otherwise it
    returns the count [(n+1)/2] with the "Index out of range" error.  The
    length drops by the returned count, the invariants of the store are
    kept, and with [k = 0] the queue is exactly as it was. *)
Theorem DeleteItemsByParentId_count (V : Type) (pq : PriorityQueue V)
    (parentID : string) :
  let k := group_size parentID (data pq) in
  let half := (Len pq + 1) / 2 in
  ∃ pq', DeleteItemsByParentId pq parentID
           = Ok (pq', (Z.min k half,
                       if k <=? half then None else Some errIndexOutOfRange)) ∧
    Len pq' = Len pq - Z.min k half ∧
    (PositionConsistent (data pq) ∧ MaxHeap (data pq) →
     PositionConsistent (data pq') ∧ MaxHeap (data pq')) ∧
    (k = 0 → pq' = pq).
Proof.
  intros k half. unfold DeleteItemsByParentId.
  assert (Hk : Z.of_nat (length (indexesToDelete (data pq) parentID)) = k).
  { unfold indexesToDelete, k, group_size. by rewrite length_fmap. }
  assert (0 ≤ Len pq) as HL by (unfold Len, QItems_Len; lia).
  destruct (DeleteItemsByParentId_loop_count
              (length (indexesToDelete (data pq) parentID)) 0 (data pq) 0)
    as (d' & E & L & Hinv); [done|].
  rewrite Hk, Z.sub_0_r, Z.add_0_l in *. fold (Len pq) in *.
  replace (Z.max 0 ((Len pq + 1) / 2)) with half in * by (unfold half; lia).
  rewrite E. simpl. exists (set_data pq d'). split; [done|].
  split; [done|]. split.
  - intros [Hpc Hheap]. destruct Hinv as [Hh' Hpc'].
    { split; [by apply MaxHeap_heap_upto|done]. }
    split; [done|]. by apply MaxHeap_heap_upto.
  - intros Hk0. rewrite Hk0 in E. simpl in E. injection E as <-.
    by destruct pq.
Qed.

Lemma DeleteItemsByParentId_count_witness :
  ∃ pq', DeleteItemsByParentId (populated 10) "12345"
           = Ok (pq', (Z.min (group_size "12345" (data (populated 10)))
                         ((Len (populated 10) + 1) / 2),
                       if group_size "12345" (data (populated 10))
                            <=? (Len (populated 10) + 1) / 2
                       then None else Some errIndexOutOfRange)) ∧
    Len pq' = Len (populated 10)
              - Z.min (group_size "12345" (data (populated 10)))
                  ((Len (populated 10) + 1) / 2) ∧
    (PositionConsistent (data (populated 10)) ∧ MaxHeap (data (populated 10)) →
     PositionConsistent (data pq') ∧ MaxHeap (data pq')) ∧
    (group_size "12345" (data (populated 10)) = 0 → pq' = populated 10).
Proof. apply (DeleteItemsByParentId_count string (populated 10) "12345"). Defined.

(** ** The unexported helpers [delete] and [update] *)

(** X10.  [delete] by position.  For a valid position it removes exactly
    the entry stored there: the length drops by one, the other entries
    stay, and position consistency and the max-heap property are kept.
    For a position at or beyond the length it returns the "Index out of
    range" error and the store is untouched.  Its guard has no lower
    bound: for a negative position the call panics. *)
Theorem delete_by_position (V : Type) (d : QItems V) (index : Z) :
  (0 ≤ index < QItems_Len d →
     ∃ d' x, slot d index = Some x ∧ delete d index = Ok (d', None) ∧
       QItems_Len d' = QItems_Len d - 1 ∧
       contents d ≡ₚ content x :: contents d' ∧
       (PositionConsistent d → PositionConsistent d') ∧
       (MaxHeap d → MaxHeap d')) ∧
  (QItems_Len d ≤ index → delete d index = Ok (d, Some errIndexOutOfRange)) ∧
  (index < 0 → delete d index = Panic).
Proof.
  split; [|split].
  - intros Hi.
    destruct (delete_spec d index) as
      [(_ & d' & x & Hx & E & L & P & C & H)|(? & _)]; [lia| |lia].
    exists d', x. repeat (split; [done|]).
    intros Hheap. apply MaxHeap_heap_upto, H. by apply MaxHeap_heap_upto.
  - intros Hge.
    assert (0 ≤ QItems_Len d) by (unfold QItems_Len; lia).
    destruct (delete_spec d index) as [(? & _)|(_ & E)]; [lia|lia|done].
  - apply delete_negative.
Qed.

Lemma delete_by_position_witness :
  (∃ d' x, slot (data (populated 3)) 1 = Some x ∧
     delete (data (populated 3)) 1 = Ok (d', None) ∧
     QItems_Len d' = QItems_Len (data (populated 3)) - 1 ∧
     contents (data (populated 3)) ≡ₚ content x :: contents d' ∧
     (PositionConsistent (data (populated 3)) → PositionConsistent d') ∧
     (MaxHeap (data (populated 3)) → MaxHeap d')) ∧
  delete (data (populated 3)) 3
    = Ok (data (populated 3), Some errIndexOutOfRange) ∧
  delete (data (populated 3)) (-1) = Panic.
Proof.
  split; [|split].
  - apply (proj1 (delete_by_position string (data (populated 3)) 1)).
    vm_compute. split; [discriminate|reflexivity].
  - apply (proj1 (proj2 (delete_by_position string (data (populated 3)) 3))).
    vm_compute. discriminate.
  - apply (proj2 (proj2 (delete_by_position string (data (populated 3)) (-1)))).
    reflexivity.
Defined.

(** X11.  [update] on a position-consistent max-heap: it returns, the
    entry at the given position gets the new priority and no other entry
    changes, and the store is again a position-consistent max-heap of the
    same length. *)
Theorem update_sets_one_priority (V : Type) (d : QItems V) (p priority : Z) :
  PositionConsistent d → MaxHeap d → 0 ≤ p < QItems_Len d →
  ∃ d' x, slot d p = Some x ∧ update d p priority = Ok d' ∧
    QItems_Len d' = QItems_Len d ∧
    contents d' ≡ₚ contents (<[Z.to_nat p := set_Priority x priority]> d) ∧
    PositionConsistent d' ∧ MaxHeap d'.
Proof.
  intros Hpc Hheap Hp.
  destruct (update_spec d p priority Hpc Hp) as (d' & x & Hx & E & Hr & Hpc' & H).
  exists d', x. split; [done|]. split; [done|].
  destruct Hr as (L & P & _). rewrite Len_insert in L.
  repeat (split; [done|]).
  apply MaxHeap_heap_upto, H. by apply MaxHeap_heap_upto.
Qed.

Lemma update_sets_one_priority_witness :
  ∃ d' x, slot (data (populated 3)) 0 = Some x ∧
    update (data (populated 3)) 0 0 = Ok d' ∧
    QItems_Len d' = QItems_Len (data (populated 3)) ∧
    contents d' ≡ₚ contents (<[Z.to_nat 0 := set_Priority x 0]> (data (populated 3))) ∧
    PositionConsistent d' ∧ MaxHeap d'.
Proof.
  assert (run (populateCalls 3) NewPriorityQueue = Ok (populated 3)) as Hrun
    by (vm_compute; reflexivity).
  destruct (reachable_Invariant _ _ Hrun) as [Hheap Hpc].
  apply (update_sets_one_priority string (data (populated 3)) 0 0).
  - exact Hpc.
  - apply MaxHeap_heap_upto. exact Hheap.
  - vm_compute. split; [discriminate|reflexivity].
Defined.

(** ** [heap.Init] *)

(** X12.  [heap.Init], which [NewPriorityQueue] calls on the empty store
    and the tests call on a populated one, returns on every store and
    leaves a max-heap with the same entries and the same length, keeping
    position consistency; on the empty store it does nothing.  A
    [heap.Pop] after it returns an entry of the largest stored
    priority. *)
Theorem heap_Init_builds_heap (V : Type) (d : QItems V) :
  ∃ d', heap_Init d = Ok d' ∧ MaxHeap d' ∧
    QItems_Len d' = QItems_Len d ∧ contents d' ≡ₚ contents d ∧
    (PositionConsistent d → PositionConsistent d') ∧
    (d = [] → d' = []) ∧
    (0 < QItems_Len d →
       ∃ d'' root, slot d' 0 = Some root ∧
         heap_Pop d' = Ok (d'', set_index root (-1)) ∧
         ∀ e, e ∈ d → Priority e ≤ Priority root).
Proof.
  destruct (heap_Init_spec d) as (d' & E & (L & P & C) & H).
  exists d'. split; [done|]. split; [by apply MaxHeap_heap_upto|].
  repeat (split; [done|]). split.
  - intros ->. destruct d'; [done|].
    unfold QItems_Len in L. simpl in L. lia.
  - intros Hpos.
    destruct (heap_Pop_spec d') as (d'' & root & Hroot & Epop & _); [lia|].
    exists d'', root. split; [done|]. split; [done|].
    intros e He.
    assert (content e ∈ contents d') as Hin
      by (rewrite P; by apply list_elem_of_fmap_2).
    apply contents_elem in Hin as (e' & He' & Hc).
    rewrite (content_Priority _ _ Hc). by apply (root_is_max d' root).
Qed.

Lemma heap_Init_builds_heap_witness :
  ∃ d', heap_Init (data (populated 3)) = Ok d' ∧ MaxHeap d' ∧
    QItems_Len d' = QItems_Len (data (populated 3)) ∧
    contents d' ≡ₚ contents (data (populated 3)) ∧
    (PositionConsistent (data (populated 3)) → PositionConsistent d') ∧
    (data (populated 3) = [] → d' = []) ∧
    (0 < QItems_Len (data (populated 3)) →
       ∃ d'' root, slot d' 0 = Some root ∧
         heap_Pop d' = Ok (d'', set_index root (-1)) ∧
         ∀ e, e ∈ data (populated 3) → Priority e ≤ Priority root).
Proof. apply (heap_Init_builds_heap string (data (populated 3))). Defined.

(** ** [Swap] *)

(** X13.  [Swap] on two occupied positions whose entries carry their own
    position: swapping the same two positions a second time restores the
    store exactly, [index] fields included. *)
Theorem Swap_twice_restores (V : Type) (d : QItems V) (i j : Z)
    (a b : QItem V) :
  slot d i = Some a → slot d j = Some b → index a = i → index b = j →
  ∃ d1, QItems_Swap d i j = Ok d1 ∧
    slot d1 i = Some (set_index b i) ∧ slot d1 j = Some (set_index a j) ∧
    QItems_Swap d1 i j = Ok d.
Proof.
  intros Ha Hb Hia Hib.
  destruct (Swap_Swap d i j a b Ha Hb Hia Hib) as (d1 & E1 & E2).
  exists d1. split; [done|].
  apply slot_Some_range in Ha as Hi. apply slot_Some_range in Hb as Hj.
  destruct (Swap_Ok d i j Hi Hj) as (d1' & E1' & _ & S1).
  rewrite E1 in E1'. injection E1' as <-.
  split; [|split; [|done]].
  - rewrite S1. destruct (Z.eqb_spec i j) as [->|_].
    + rewrite Ha. rewrite Hb in Ha. by injection Ha as ->.
    + by rewrite Z.eqb_refl, Hb.
  - by rewrite S1, Z.eqb_refl, Ha.
Qed.

Lemma Swap_twice_restores_witness :
  ∃ d1, QItems_Swap (data (populated 3)) 0 2 = Ok d1 ∧
    slot d1 0 = Some (set_index (mkQItem "1" "12345" "test" 2 2) 0) ∧
    slot d1 2 = Some (set_index (mkQItem "2" "12345" "test" 3 0) 2) ∧
    QItems_Swap d1 0 2 = Ok (data (populated 3)).
Proof.
  apply (Swap_twice_restores string (data (populated 3)) 0 2
           (mkQItem "2" "12345" "test" 3 0) (mkQItem "1" "12345" "test" 2 2));
    reflexivity.
Defined.

(** ** Termination of the loops of [container/heap] *)

Lemma wrap64_id z : int64 z → wrap64 z = z.
Proof. unfold int64, wrap64. lia. Qed.

Lemma wrap64_high z :
  9223372036854775808 ≤ z < 18446744073709551616 → wrap64 z < 0.
Proof. unfold wrap64. lia. Qed.

Lemma up64_loop_agrees (V : Type) budget : ∀ (d : QItems V) j,
  0 ≤ j < 9223372036854775808 → up64_loop budget d j = up_loop budget d j.
Proof.
  induction budget as [|b IH]; intros d j Hj; [done|].
  simpl. rewrite wrap64_id by (unfold int64; lia).
  destruct (_ =? j); [done|].
  destruct (QItems_Less d j _) as [lt| |]; simpl; [|done..].
  destruct lt; simpl; [|done].
  destruct (QItems_Swap d _ j) as [d'| |]; simpl; [|done..].
  apply IH. lia.
Qed.

Lemma up64_agrees (V : Type) (d : QItems V) j :
  0 ≤ j < 9223372036854775808 → up64 d j = up d j.
Proof. apply up64_loop_agrees. Qed.

Lemma down64_loop_agrees (V : Type) n budget : ∀ (d : QItems V) i,
  n < 9223372036854775808 → 0 ≤ i < 9223372036854775808 →
  down64_loop budget d i n = down_loop budget d i n.
Proof.
  induction budget as [|b IH]; intros d i Hn Hi; [done|].
  simpl.
  destruct (Z_lt_le_dec (2 * i + 1) 9223372036854775808) as [Hsmall|Hbig].
  - rewrite (wrap64_id (2 * i + 1)) by (unfold int64; lia).
    destruct (Z.geb_spec (2 * i + 1) n) as [|Hlt]; simpl; [done|].
    destruct (Z.ltb_spec (2 * i + 1) 0); simpl; [done|].
    rewrite (wrap64_id (2 * i + 1 + 1)) by (unfold int64; lia).
    destruct (if _ <? n then _ else _) as [less21| |]; simpl; [|done..].
    set (j := if less21 then 2 * i + 1 + 1 else 2 * i + 1).
    assert (0 ≤ j < 9223372036854775808)
      by (unfold j; destruct less21; lia).
    destruct (QItems_Less d j i) as [lt| |]; simpl; [|done..].
    destruct lt; simpl; [|done].
    destruct (QItems_Swap d i j) as [d'| |]; simpl; [|done..].
    by apply IH.
  - pose proof (wrap64_high (2 * i + 1) ltac:(lia)) as Hneg.
    destruct (Z.ltb_spec (wrap64 (2 * i + 1)) 0) as [_|?]; [|lia].
    rewrite orb_true_r.
    destruct (Z.geb_spec (2 * i + 1) n); [done|lia].
Qed.

Lemma down64_agrees (V : Type) (d : QItems V) i n :
  n < 9223372036854775808 → 0 ≤ i < 9223372036854775808 →
  down64 d i n = down d i n.
Proof.
  intros Hn Hi. unfold down64, down. by rewrite down64_loop_agrees.
Qed.

Lemma up64_negative (V : Type) (d : QItems V) j :
  j < 0 → up64 d j ≠ Exhausted.
Proof.
  intros Hj. unfold up64. simpl. destruct (_ =? j); [done|].
  destruct (Less_cases d j (Z.quot (wrap64 (j - 1)) 2)) as [[lt E]|E].
  - apply Less_Ok_range in E. lia.
  - by rewrite E.
Qed.

Lemma down64_negative (V : Type) (d : QItems V) i n :
  i < 0 → down64 d i n ≠ Exhausted.
Proof.
  intros Hi. unfold down64. simpl. destruct (_ || _); [done|].
  assert ((∃ less21 : bool,
            (if wrap64 (wrap64 (2 * i + 1) + 1) <? n
             then QItems_Less d (wrap64 (wrap64 (2 * i + 1) + 1))
                    (wrap64 (2 * i + 1))
             else Ok false) = Ok less21) ∨
          (if wrap64 (wrap64 (2 * i + 1) + 1) <? n
           then QItems_Less d (wrap64 (wrap64 (2 * i + 1) + 1))
                  (wrap64 (2 * i + 1))
           else Ok false) = Panic) as Hc.
  { destruct (_ <? n); [apply Less_cases|left; eauto]. }
  destruct Hc as [[less21 ->]| ->]; simpl; [|done].
  set (j := if less21 then _ else _).
  destruct (Less_cases d j i) as [[lt E]|E].
  - apply Less_Ok_range in E. lia.
  - by rewrite E.
Qed.

(** X14.  The sift loops of [container/heap], computed with Go's 64-bit
    wrap-around, end within [len + 1] rounds on every store and for every
    [int] argument, in range or not: they return or panic and never run
    on.  For a non-negative position they compute exactly what [up] and
    [down] compute on unbounded integers, and for a position inside the
    store they return. *)
Theorem heap_loops_end (V : Type) (d : QItems V) (i n : Z) :
  int64 i → int64 n →
  up64 d i ≠ Exhausted ∧ down64 d i n ≠ Exhausted ∧
  (0 ≤ i → up64 d i = up d i ∧ down64 d i n = down d i n) ∧
  (0 ≤ i < QItems_Len d → ∃ d', up64 d i = Ok d') ∧
  (0 ≤ i → n ≤ QItems_Len d → ∃ d' moved, down64 d i n = Ok (d', moved)).
Proof.
  intros Hi Hn. unfold int64 in *.
  assert (Hagree : 0 ≤ i → up64 d i = up d i ∧ down64 d i n = down d i n).
  { intros Hpos. split; [apply up64_agrees|apply down64_agrees]; lia. }
  split; [|split; [|split; [done|split]]].
  - destruct (Z_lt_le_dec i 0) as [Hneg|Hpos]; [by apply up64_negative|].
    rewrite (proj1 (Hagree Hpos)). apply up_total.
  - destruct (Z_lt_le_dec i 0) as [Hneg|Hpos]; [by apply down64_negative|].
    rewrite (proj2 (Hagree Hpos)). apply down_total.
  - intros Hin. rewrite (proj1 (Hagree ltac:(lia))).
    destruct (up_loop_spec (S (length d)) d i) as (d' & E & _);
      [done|unfold QItems_Len in Hin; lia|].
    exists d'. exact E.
  - intros Hpos Hle. rewrite (proj2 (Hagree Hpos)). unfold down.
    destruct (down_loop_spec n (S (length d)) d i) as (d' & i' & -> & _);
      [done|done|unfold QItems_Len in Hle; lia|].
    simpl. eauto.
Qed.

Lemma heap_loops_end_witness :
  (up64 (data (populated 3)) (-9223372036854775808) ≠ Exhausted ∧
   down64 (data (populated 3)) (-9223372036854775808) 3 ≠ Exhausted) ∧
  (∃ d', up64 (data (populated 3)) 2 = Ok d') ∧
  (∃ d' moved, down64 (data (populated 3)) 0 3 = Ok (d', moved)).
Proof.
  assert (int64 (-9223372036854775808)) as Hmin
    by (unfold int64; lia).
  assert (int64 0) as H0 by (unfold int64; lia).
  assert (int64 2) as H2 by (unfold int64; lia).
  assert (int64 3) as H3 by (unfold int64; lia).
  destruct (heap_loops_end string (data (populated 3))
              (-9223372036854775808) 3 Hmin H3) as (Hu & Hd & _).
  destruct (heap_loops_end string (data (populated 3)) 2 3 H2 H3)
    as (_ & _ & _ & Hup & _).
  destruct (heap_loops_end string (data (populated 3)) 0 3 H0 H3)
    as (_ & _ & _ & _ & Hdown).
  split; [by split|]. split.
  - apply Hup. vm_compute. split; [discriminate|reflexivity].
  - apply Hdown; vm_compute; discriminate.
Defined.
